(** * psswrd: the N-gram model and the template-driven password generator

    Shallow embedding of [src/src/psswrd/psswrd.py]: the class [Ngram]
    ([__init__], [__getitem__], [phrase]) and [generate_password].

    - Python strings are lists of ASCII characters ([str]).
    - The [dict] of [Counter]s is an association list kept in insertion
      order (Python dicts and Counters iterate in insertion order, and
      [choice(list(table.keys()))] depends on that order).
    - Code that draws random numbers or raises runs in a state and error
      monad [M] threading the state of the random source.  The source is
      abstract: a generator [raw] of raw draws; Python's [_randbelow(k)]
      (a uniform integer in [0, k)) is its draw reduced into [0, k). *)

From Stdlib Require Import Ascii String List Arith Lia Bool.
Import ListNotations.

Definition str := list ascii.

(** Python exceptions that the modelled code can raise. *)
Inductive exc := IndexError | KeyError | ValueError.

(** Python's [str.upper] and [str.lower] on one ASCII character. *)
Definition upper (c : ascii) : ascii :=
  let k := nat_of_ascii c in
  if (97 <=? k) && (k <=? 122) then ascii_of_nat (k - 32) else c.

Definition lower (c : ascii) : ascii :=
  let k := nat_of_ascii c in
  if (65 <=? k) && (k <=? 90) then ascii_of_nat (k + 32) else c.

Definition str_eqb (a b : str) : bool :=
  if list_eq_dec ascii_dec a b then true else false.

(** ** Counters and the N-gram table *)

Definition counter := list (ascii * nat).
Definition Table := list (str * counter).

(** [ctr[nxt] += 1] on a [Counter]: a missing key starts at 0 and is
    appended at the end. *)
Fixpoint counter_incr (nxt : ascii) (ctr : counter) : counter :=
  match ctr with
  | [] => [(nxt, 1)]
  | (k, v) :: r =>
      if ascii_dec k nxt then (k, S v) :: r else (k, v) :: counter_incr nxt r
  end.

(** [ctr[c]] on a [Counter]: 0 for a missing key. *)
Fixpoint counter_get (ctr : counter) (c : ascii) : nat :=
  match ctr with
  | [] => 0
  | (k, v) :: r => if ascii_dec k c then v else counter_get r c
  end.

(** [table[pre][nxt] += 1] on a [defaultdict(Counter)]. *)
Fixpoint table_incr (pre : str) (nxt : ascii) (t : Table) : Table :=
  match t with
  | [] => [(pre, counter_incr nxt [])]
  | (k, ctr) :: r =>
      if list_eq_dec ascii_dec k pre then (k, counter_incr nxt ctr) :: r
      else (k, ctr) :: table_incr pre nxt r
  end.

(** [table[pre]] on a [dict]: [None] stands for the [KeyError]. *)
Fixpoint lookup (pre : str) (t : Table) : option counter :=
  match t with
  | [] => None
  | (k, ctr) :: r => if list_eq_dec ascii_dec k pre then Some ctr else lookup pre r
  end.

(** [table[pre][nxt]], read without inserting. *)
Definition count_of (t : Table) (pre : str) (nxt : ascii) : nat :=
  match lookup pre t with Some ctr => counter_get ctr nxt | None => 0 end.

(** Python slice [s[i:j]] for [0 <= i <= j]. *)
Definition slice (s : str) (i j : nat) : str := firstn (j - i) (skipn i s).

(** The inner loop of [Ngram.__init__]:
    [while pre: table[pre][nxt] += 1; pre = pre[1:]]. *)
Fixpoint record_suffixes (pre : str) (nxt : ascii) (t : Table) : Table :=
  match pre with
  | [] => t
  | _ :: rest => record_suffixes rest nxt (table_incr pre nxt t)
  end.

(** One iteration of the outer loop, for start index [i]. *)
Definition record_window (corpus : str) (n : nat) (t : Table) (i : nat) : Table :=
  let pre := slice corpus i (i + n) in
  let nxt := nth (i + n) corpus " "%char in   (* [i + n < len(corpus)] *)
  record_suffixes pre nxt t.

Record Ngram := mkNgram { table : Table; order : nat (* [self.n] *) }.

(** [Ngram(corpus, n)]: [for i in range(0, len(corpus) - n)], then
    [self.table = dict(table)], [self.n = n].  The order is a [nat]. *)
Definition Ngram_init (corpus : str) (n : nat) : Ngram :=
  {| table := fold_left (record_window corpus n) (seq 0 (length corpus - n)) [];
     order := n |}.

(** ** The state and error monad *)

Definition M (St A : Type) := St -> exc + (A * St).

Definition ret {St A : Type} (a : A) : M St A := fun s => inr (a, s).

Definition bind {St A B : Type} (m : M St A) (f : A -> M St B) : M St B :=
  fun s => match m s with inl e => inl e | inr (a, s') => f a s' end.

Definition raise {St A : Type} (e : exc) : M St A := fun _ => inl e.

Notation "x <- c1 ;; c2" := (bind c1 (fun x => c2))
  (at level 61, c1 at next level, right associativity).

(** Pure helpers of [random.choices]. *)

(** [itertools.accumulate(weights)]. *)
Fixpoint accumulate (acc : nat) (ws : list nat) : list nat :=
  match ws with
  | [] => []
  | w :: r => (acc + w) :: accumulate (acc + w) r
  end.

(** Number of leading entries [<= x]: for the nondecreasing cumulative
    weights it is the index that [bisect.bisect_right] computes. *)
Fixpoint bisect_count (a : list nat) (x : nat) : nat :=
  match a with
  | [] => 0
  | w :: r => if x <? w then 0 else S (bisect_count r x)
  end.

(** [bisect_right(a, x, lo, hi)]. *)
Definition bisect_right (a : list nat) (x lo hi : nat) : nat :=
  lo + bisect_count (firstn (hi - lo) (skipn lo a)) x.

(** Python's [list.pop()]: removes and returns the last element. *)
Definition pop {St A : Type} (l : list A) : M St (A * list A) :=
  match rev l with
  | [] => raise IndexError
  | x :: r => ret (x, rev r)
  end.

Definition digits : list ascii := list_ascii_of_string "0123456789".
Definition punctuation : list ascii := list_ascii_of_string "!@#$%&*+-=?;".

Section Rng.

(** State of the random source and its raw generator. *)
Context {St : Type}.
Variable raw : St -> nat * St.

(** [random._randbelow(k)]: an integer in [0, k). *)
Definition randbelow (k : nat) : M St nat :=
  fun s => let (r, s') := raw s in inr (r mod k, s').

(** [random.choice(seq)]. *)
Definition choice {A : Type} (seq : list A) : M St A :=
  match seq with
  | [] => raise IndexError
  | x :: _ => i <- randbelow (length seq) ;; ret (nth i seq x)
  end.

(** [random.choices(population, weights=weights)[0]].  The float
    [random() * total] is represented by its integer part, a draw in
    [0, total): the cumulative weights are integers, so bisecting at the
    float and at its floor give the same index. *)
Definition choices (population : list ascii) (weights : list nat) : M St ascii :=
  let cum_weights := accumulate 0 weights in
  if negb (length cum_weights =? length population) then raise ValueError else
  match rev cum_weights with
  | [] => raise IndexError
  | total :: _ =>
      if total =? 0 then raise ValueError else
      x <- randbelow total ;;
      match nth_error population
              (bisect_right cum_weights x 0 (length population - 1)) with
      | Some c => ret c
      | None => raise IndexError
      end
  end.

(** [choices(list(ctr.keys()), weights=ctr.values())[0]]. *)
Definition draw_counter (ctr : counter) : M St ascii :=
  choices (map fst ctr) (map snd ctr).

(** The two lines after the loop of [Ngram.__getitem__]:
    [ctr = table[choice(list(table.keys()))]] and a weighted draw. *)
Definition fallback (t : Table) : M St ascii :=
  k <- choice (map fst t) ;;
  match lookup k t with
  | Some ctr => draw_counter ctr
  | None => raise KeyError
  end.

(** The [while pre:] loop of [Ngram.__getitem__]: a hit returns a draw
    from its counter, a [KeyError] drops the leading character. *)
Fixpoint lookup_loop (t : Table) (pre : str) : M St ascii :=
  match pre with
  | [] => fallback t
  | _ :: rest =>
      match lookup pre t with
      | Some ctr => draw_counter ctr
      | None => lookup_loop t rest
      end
  end.

(** Python's [pre[-n:]]; [pre[-0:]] is [pre[0:]], the whole string. *)
Definition last_n (n : nat) (pre : str) : str :=
  match n with
  | 0 => pre
  | _ => skipn (length pre - n) pre
  end.

(** [Ngram.__getitem__(pre)], called as [self[s]]. *)
Definition sample (ng : Ngram) (pre : str) : M St ascii :=
  lookup_loop (table ng) (last_n (order ng) pre).

(** [for _ in range(k): s += self[s]]. *)
Fixpoint phrase_loop (ng : Ngram) (k : nat) (s : str) : M St str :=
  match k with
  | 0 => ret s
  | S k' => c <- sample ng s ;; phrase_loop ng k' (s ++ [c])
  end.

(** [Ngram.phrase(length)]. *)
Definition phrase (ng : Ngram) (len : nat) : M St str := phrase_loop ng len [].

(** The [for c in template:] loop of [generate_password]; [phrase] is the
    reversed phrase, [pwd] the characters appended so far. *)
Fixpoint template_loop (template : str) (phrase : list ascii) (pwd : list ascii)
  : M St str :=
  match template with
  | [] => ret pwd
  | c :: rest =>
      if ascii_dec c "u" then
        p <- pop phrase ;; template_loop rest (snd p) (pwd ++ [upper (fst p)])
      else if ascii_dec c "l" then
        p <- pop phrase ;; template_loop rest (snd p) (pwd ++ [fst p])
      else if ascii_dec c "m" then
        p <- pop phrase ;;
        let pc := fst p in
        x <- choice [lower pc; upper pc] ;; template_loop rest (snd p) (pwd ++ [x])
      else if ascii_dec c "d" then
        x <- choice digits ;; template_loop rest phrase (pwd ++ [x])
      else if ascii_dec c "p" then
        x <- choice punctuation ;; template_loop rest phrase (pwd ++ [x])
      else template_loop rest phrase (pwd ++ [c])
  end.

(** [generate_password(ngram, template)]. *)
Definition generate_password (ng : Ngram) (template : str) : M St str :=
  let pwd_len := length template in
  p <- phrase ng pwd_len ;;
  template_loop template (rev p) [].

(** The directive table of the spec (section 4.3), read literally: a
    cursor moves forward through the phrase, [u]/[l]/[m] take the letter
    under it, [m] chooses lower or upper case with a fair draw, [d] and
    [p] draw an index into the digits or the punctuation set, any other
    character is copied.  A missing letter is an [IndexError]. *)
Fixpoint apply_spec (template : str) (phrase : list ascii) (pwd : list ascii)
  : M St str :=
  match template with
  | [] => ret pwd
  | c :: rest =>
      if ascii_dec c "u" then
        match phrase with
        | [] => raise IndexError
        | x :: ph => apply_spec rest ph (pwd ++ [upper x])
        end
      else if ascii_dec c "l" then
        match phrase with
        | [] => raise IndexError
        | x :: ph => apply_spec rest ph (pwd ++ [x])
        end
      else if ascii_dec c "m" then
        match phrase with
        | [] => raise IndexError
        | x :: ph =>
            b <- randbelow 2 ;;
            apply_spec rest ph (pwd ++ [if b =? 0 then lower x else upper x])
        end
      else if ascii_dec c "d" then
        i <- randbelow 10 ;; apply_spec rest phrase (pwd ++ [nth i digits "0"%char])
      else if ascii_dec c "p" then
        i <- randbelow 12 ;; apply_spec rest phrase (pwd ++ [nth i punctuation "!"%char])
      else apply_spec rest phrase (pwd ++ [c])
  end.

End Rng.

(** A concrete random source for evaluating the definitions. *)
Definition lcg (s : nat) : nat * nat := (s * 7 + 3, S s).

Definition corpus_ex : str := list_ascii_of_string "abracadabra".
Definition ng_ex : Ngram := Ngram_init corpus_ex 2.

(** Invariant of the entries of a table built from [corpus] with order
    [n]: the key has 1 to [n] characters, the counter is non-empty, its
    counts are positive, its characters occur in the corpus, and its keys
    are distinct. *)
Definition entry_ok (corpus : str) (n : nat) (e : str * counter) : Prop :=
  1 <= length (fst e) <= n /\ snd e <> [] /\
  Forall (fun kv => 0 < snd kv /\ In (fst kv) corpus) (snd e) /\
  NoDup (map fst (snd e)).

(** The construction as the spec words it (section 4.1): for each start
    index [i], with [ctx = corpus[i:i+n]] and [next = corpus[i+n]], one
    observation [(suffix, next)] for every non-empty suffix of [ctx]. *)
Fixpoint nonempty_suffixes (ctx : str) : list str :=
  match ctx with
  | [] => []
  | _ :: r => ctx :: nonempty_suffixes r
  end.

Definition observations (corpus : str) (n : nat) : list (str * ascii) :=
  flat_map (fun i =>
              let ctx := slice corpus i (i + n) in
              let nxt := nth (i + n) corpus " "%char in
              map (fun suf => (suf, nxt)) (nonempty_suffixes ctx))
           (seq 0 (length corpus - n)).

Definition obs_eq_dec (a b : str * ascii) : {a = b} + {a <> b}.
Proof. decide equality; [apply ascii_dec | apply (list_eq_dec ascii_dec)]. Defined.
Arguments obs_eq_dec : simpl never.

(** The pure part of [draw_counter]: total weight, and the candidate
    that [choices] returns for the draw [x] in [0, total). *)
Definition total (ctr : counter) : nat := list_sum (map snd ctr).

Definition pick (ctr : counter) (x : nat) : option ascii :=
  nth_error (map fst ctr)
            (bisect_right (accumulate 0 (map snd ctr)) x 0 (length (map fst ctr) - 1)).

Definition opt_ascii_eqb (o : option ascii) (k : ascii) : bool :=
  match o with Some c => if ascii_dec c k then true else false | None => false end.

(** Every counter of the table is non-empty with positive counts. *)
Definition counters_ok (t : Table) : Prop :=
  Forall (fun e => snd e <> [] /\ Forall (fun kv => 0 < snd kv) (snd e)) t.

(** Sum of the counts stored under the keys of length [k], and under all
    keys. *)
Definition weight_of_length (k : nat) (t : Table) : nat :=
  list_sum (map (fun e => if length (fst e) =? k then total (snd e) else 0) t).

Definition table_weight (t : Table) : nat := list_sum (map (fun e => total (snd e)) t).

(** The template characters that pop a letter of the phrase, and the
    number of them among the first [i] characters of a template. *)
Definition takes_letter (c : ascii) : bool :=
  if ascii_dec c "u" then true
  else if ascii_dec c "l" then true
  else if ascii_dec c "m" then true
  else false.

Definition letters_before (template : str) (i : nat) : nat :=
  length (filter takes_letter (firstn i template)).

(** The output character [o] for the template character [c], where [x]
    is the phrase letter that [c] would take. *)
Definition position_ok (c x o : ascii) : Prop :=
  (c = "u"%char -> o = upper x) /\
  (c = "l"%char -> o = x) /\
  (c = "m"%char -> o = lower x \/ o = upper x) /\
  (c = "d"%char -> In o digits) /\
  (c = "p"%char -> In o punctuation) /\
  (~ In c ["u"; "l"; "m"; "d"; "p"]%char -> o = c).

Definition lowercase_or_underscore (o : ascii) : Prop :=
  97 <= nat_of_ascii o <= 122 \/ o = "_"%char.

Definition uppercase_or_underscore (o : ascii) : Prop :=
  65 <= nat_of_ascii o <= 90 \/ o = "_"%char.

(** ** [main] and [password_gui] *)

(** Python's [\w] and [\d] on an ASCII character. *)
Definition is_word_char (c : ascii) : bool :=
  let k := nat_of_ascii c in
  ((48 <=? k) && (k <=? 57)) || ((65 <=? k) && (k <=? 90)) ||
  ((97 <=? k) && (k <=? 122)) || (k =? 95).

Definition is_digit_char (c : ascii) : bool :=
  let k := nat_of_ascii c in (48 <=? k) && (k <=? 57).

(** [re.sub] with the pattern [[\W\d]] and an empty replacement: every
    character that is not a word character, or is a digit, is removed. *)
Definition re_sub_nonword_digit (text : str) : str :=
  filter (fun c => negb (negb (is_word_char c) || is_digit_char c)) text.

(** [str.lower()]. *)
Definition str_lower (s : str) : str := map lower s.

(** The corpus and the model built by [main] from the text [corpus_text]:
    the cleaned text, lowercased, and [Ngram(corpus, 3)]. *)
Definition main_corpus (corpus_text : str) : str :=
  str_lower (re_sub_nonword_digit corpus_text).

Definition main_ngram (corpus_text : str) : Ngram := Ngram_init (main_corpus corpus_text) 3.



Section Gui.

Context {St : Type}.
Variable raw : St -> nat * St.



End Gui.


(** * Proofs *)

Create HintDb ngram.

(** ** Counters *)

Lemma counter_incr_get (c d : ascii) (ctr : counter) :
  counter_get (counter_incr c ctr) d =
  counter_get ctr d + (if ascii_dec c d then 1 else 0).
Proof.
  induction ctr as [|[k v] r IH]; simpl.
  - destruct (ascii_dec c d); reflexivity.
  - destruct (ascii_dec k c) as [->|Hkc]; simpl.
    + destruct (ascii_dec c d); lia.
    + rewrite IH. destruct (ascii_dec k d) as [->|]; [|reflexivity].
      destruct (ascii_dec c d); [congruence|lia].
Qed.

Lemma counter_incr_keys (c x : ascii) (ctr : counter) :
  In x (map fst (counter_incr c ctr)) <-> x = c \/ In x (map fst ctr).
Proof.
  induction ctr as [|[k v] r IH]; simpl.
  - intuition.
  - destruct (ascii_dec k c) as [->|Hkc]; simpl; rewrite ?IH; intuition.
Qed.

Lemma counter_incr_nodup (c : ascii) (ctr : counter) :
  NoDup (map fst ctr) -> NoDup (map fst (counter_incr c ctr)).
Proof.
  induction ctr as [|[k v] r IH]; simpl; intros Hnd.
  - constructor; [intros []|constructor].
  - inversion Hnd as [|? ? Hk Hr]; subst.
    destruct (ascii_dec k c) as [->|Hkc]; simpl; constructor; auto.
    rewrite counter_incr_keys. intuition.
Qed.

Lemma counter_incr_forall (P : ascii * nat -> Prop) (c : ascii) (ctr : counter) :
  P (c, 1) -> (forall v, In (c, v) ctr -> P (c, S v)) ->
  Forall P ctr -> Forall P (counter_incr c ctr).
Proof.
  induction ctr as [|[k v] r IH]; simpl; intros H1 HS Hall.
  - constructor; auto.
  - inversion Hall; subst.
    destruct (ascii_dec k c) as [->|Hkc]; constructor; auto.
Qed.

Lemma counter_incr_nonempty (c : ascii) (ctr : counter) : counter_incr c ctr <> [].
Proof. destruct ctr as [|[k v] r]; simpl; [|destruct (ascii_dec k c)]; discriminate. Qed.

(** ** The table *)

Lemma lookup_table_incr (pre s : str) (c : ascii) (t : Table) :
  lookup s (table_incr pre c t) =
  if list_eq_dec ascii_dec s pre
  then Some (counter_incr c (match lookup pre t with Some ctr => ctr | None => [] end))
  else lookup s t.
Proof.
  induction t as [|[k ctr] r IH]; simpl.
  - destruct (list_eq_dec ascii_dec pre s), (list_eq_dec ascii_dec s pre); congruence.
  - destruct (list_eq_dec ascii_dec k pre) as [->|Hk]; simpl.
    + destruct (list_eq_dec ascii_dec pre s), (list_eq_dec ascii_dec s pre); congruence.
    + destruct (list_eq_dec ascii_dec k s) as [->|Hks].
      * destruct (list_eq_dec ascii_dec s pre); congruence.
      * rewrite IH. reflexivity.
Qed.

Lemma count_of_table_incr (pre s : str) (c d : ascii) (t : Table) :
  count_of (table_incr pre c t) s d =
  count_of t s d +
  (if list_eq_dec ascii_dec s pre then (if ascii_dec c d then 1 else 0) else 0).
Proof.
  unfold count_of. rewrite lookup_table_incr.
  destruct (list_eq_dec ascii_dec s pre) as [->|]; [|lia].
  rewrite counter_incr_get. destruct (lookup pre t); simpl; lia.
Qed.

Lemma table_incr_keys (pre x : str) (c : ascii) (t : Table) :
  In x (map fst (table_incr pre c t)) <-> x = pre \/ In x (map fst t).
Proof.
  induction t as [|[k ctr] r IH]; simpl.
  - intuition.
  - destruct (list_eq_dec ascii_dec k pre) as [->|]; simpl; rewrite ?IH; intuition.
Qed.

Lemma table_incr_nodup (pre : str) (c : ascii) (t : Table) :
  NoDup (map fst t) -> NoDup (map fst (table_incr pre c t)).
Proof.
  induction t as [|[k ctr] r IH]; simpl; intros Hnd.
  - constructor; [intros []|constructor].
  - inversion Hnd as [|? ? Hk Hr]; subst.
    destruct (list_eq_dec ascii_dec k pre) as [->|Hkp]; simpl; constructor; auto.
    rewrite table_incr_keys. intuition.
Qed.

Lemma table_incr_forall (P : str * counter -> Prop) (pre : str) (c : ascii) (t : Table) :
  P (pre, counter_incr c []) ->
  (forall ctr, In (pre, ctr) t -> P (pre, counter_incr c ctr)) ->
  Forall P t -> Forall P (table_incr pre c t).
Proof.
  induction t as [|[k ctr] r IH]; simpl; intros H0 HS Hall.
  - constructor; auto.
  - inversion Hall; subst.
    destruct (list_eq_dec ascii_dec k pre) as [->|]; constructor; auto.
Qed.

Lemma lookup_In (s : str) (t : Table) (ctr : counter) :
  lookup s t = Some ctr -> In (s, ctr) t.
Proof.
  induction t as [|[k c] r IH]; simpl; [discriminate|].
  destruct (list_eq_dec ascii_dec k s) as [->|]; [injection 1 as ->|]; auto.
Qed.

Lemma In_lookup (s : str) (t : Table) :
  In s (map fst t) -> exists ctr, lookup s t = Some ctr.
Proof.
  induction t as [|[k c] r IH]; simpl; [intros []|].
  destruct (list_eq_dec ascii_dec k s) as [->|]; [eauto|].
  intros [->|H]; [congruence|auto].
Qed.

Lemma lookup_None (s : str) (t : Table) :
  lookup s t = None <-> ~ In s (map fst t).
Proof.
  split.
  - intros H Hin. destruct (In_lookup s t Hin). congruence.
  - destruct (lookup s t) eqn:E; [|reflexivity].
    intros Hn. exfalso. apply Hn, (in_map fst _ (s, c)), lookup_In, E.
Qed.

(** ** Invariants of the construction *)

Lemma record_suffixes_forall (corpus : str) (n : nat) (pre : str) (nxt : ascii) (t : Table) :
  length pre <= n -> In nxt corpus ->
  Forall (entry_ok corpus n) t -> Forall (entry_ok corpus n) (record_suffixes pre nxt t).
Proof.
  revert t. induction pre as [|x r IH]; simpl; intros t Hlen Hnxt Hall; [exact Hall|].
  apply IH; [lia|exact Hnxt|].
  apply table_incr_forall; [| |exact Hall].
  - unfold entry_ok; simpl. repeat split; try lia; auto.
    + discriminate.
    + constructor; [intros []|constructor].
  - intros ctr Hin.
    destruct (proj1 (Forall_forall _ _) Hall _ Hin) as (Hl & Hne & Hc & Hnd).
    unfold entry_ok; simpl in *. repeat split; try lia.
    + apply counter_incr_nonempty.
    + apply counter_incr_forall; [simpl; auto| |exact Hc].
      intros v Hv. simpl. split; [lia|exact Hnxt].
    + apply counter_incr_nodup, Hnd.
Qed.

Lemma record_suffixes_nodup (pre : str) (nxt : ascii) (t : Table) :
  NoDup (map fst t) -> NoDup (map fst (record_suffixes pre nxt t)).
Proof.
  revert t. induction pre as [|x r IH]; simpl; intros t Hnd; auto.
  apply IH, table_incr_nodup, Hnd.
Qed.

Lemma record_suffixes_keys (pre x : str) (nxt : ascii) (t : Table) :
  In x (map fst t) -> In x (map fst (record_suffixes pre nxt t)).
Proof.
  revert t. induction pre as [|y r IH]; simpl; intros t Hin; auto.
  apply IH, table_incr_keys. auto.
Qed.

Lemma slice_length (corpus : str) (i n : nat) : length (slice corpus i (i + n)) <= n.
Proof.
  unfold slice. replace (i + n - i) with n by lia. apply firstn_le_length.
Qed.

Lemma window_in_range (corpus : str) (n i : nat) :
  In i (seq 0 (length corpus - n)) -> i + n < length corpus.
Proof. rewrite in_seq. lia. Qed.

Lemma fold_windows_forall (P : Table -> Prop) (corpus : str) (n : nat) (l : list nat) (t : Table) :
  (forall i t, i + n < length corpus -> P t -> P (record_window corpus n t i)) ->
  (forall i, In i l -> i + n < length corpus) ->
  P t -> P (fold_left (record_window corpus n) l t).
Proof.
  revert t. induction l as [|i l IH]; simpl; intros t Hstep Hl Ht; auto.
Qed.

Lemma build_entries_ok (corpus : str) (n : nat) :
  Forall (entry_ok corpus n) (table (Ngram_init corpus n)).
Proof.
  unfold Ngram_init; simpl.
  apply fold_windows_forall; [| apply window_in_range | constructor].
  intros i t Hi Ht. unfold record_window.
  apply record_suffixes_forall; [apply slice_length| apply nth_In; lia | exact Ht].
Qed.

Lemma build_nodup (corpus : str) (n : nat) :
  NoDup (map fst (table (Ngram_init corpus n))).
Proof.
  unfold Ngram_init; simpl.
  apply (fold_windows_forall (fun t => NoDup (map fst t)));
    [| apply window_in_range | constructor].
  intros i t _ Ht. apply record_suffixes_nodup, Ht.
Qed.

Lemma build_lookup_ok (corpus : str) (n : nat) (s : str) (ctr : counter) :
  lookup s (table (Ngram_init corpus n)) = Some ctr -> entry_ok corpus n (s, ctr).
Proof.
  intros H. apply lookup_In in H.
  exact (proj1 (Forall_forall _ _) (build_entries_ok corpus n) _ H).
Qed.

(** The table is empty exactly when there is no window or the windows
    have empty contexts. *)
Lemma build_empty_iff (corpus : str) (n : nat) :
  table (Ngram_init corpus n) = [] <-> length corpus <= n \/ n = 0.
Proof.
  unfold Ngram_init; simpl. split.
  - intros H. destruct n as [|n']; [right; reflexivity|left].
    destruct (length corpus - S n') eqn:E; [lia|exfalso].
    revert H. simpl seq. simpl fold_left.
    set (t0 := record_window corpus (S n') [] 0).
    assert (Hk : In (slice corpus 0 (0 + S n')) (map fst t0)).
    { unfold t0, record_window.
      assert (Hl : length (slice corpus 0 (0 + S n')) = S n').
      { unfold slice. rewrite length_firstn, length_skipn. lia. }
      destruct (slice corpus 0 (0 + S n')) as [|x r]; [discriminate|].
      simpl. apply record_suffixes_keys. simpl. auto. }
    pose proof (fold_windows_forall
                  (fun t => In (slice corpus 0 (0 + S n')) (map fst t))
                  corpus (S n') (seq 1 n) t0) as Hf.
    intros H. rewrite H in Hf. apply Hf; [| |exact Hk].
    + intros i t _ Ht. apply record_suffixes_keys, Ht.
    + intros i. rewrite in_seq. lia.
  - intros [H| ->].
    + replace (length corpus - n) with 0 by lia. reflexivity.
    + apply (fold_windows_forall (fun t => t = [])); [| apply window_in_range | reflexivity].
      intros i t _ ->. unfold record_window, slice.
      replace (i + 0 - i) with 0 by lia. reflexivity.
Qed.

(** ** Counting the observations *)

Lemma count_occ_pairs (L : list str) (c d : ascii) (s : str) :
  count_occ obs_eq_dec (map (fun suf => (suf, c)) L) (s, d) =
  if ascii_dec c d then count_occ (list_eq_dec ascii_dec) L s else 0.
Proof.
  induction L as [|x L IH]; [destruct (ascii_dec c d); reflexivity|].
  change (map (fun suf => (suf, c)) (x :: L)) with ((x, c) :: map (fun suf => (suf, c)) L).
  destruct (obs_eq_dec (x, c) (s, d)) as [E|E].
  - rewrite count_occ_cons_eq, IH by exact E. injection E as -> ->.
    destruct (ascii_dec d d); [|congruence]. rewrite count_occ_cons_eq; reflexivity.
  - rewrite count_occ_cons_neq, IH by exact E.
    destruct (ascii_dec c d) as [->|]; [|reflexivity].
    rewrite count_occ_cons_neq; [reflexivity|congruence].
Qed.

Lemma record_suffixes_count (pre s : str) (c d : ascii) (t : Table) :
  count_of (record_suffixes pre c t) s d =
  count_of t s d +
  count_occ obs_eq_dec (map (fun suf => (suf, c)) (nonempty_suffixes pre)) (s, d).
Proof.
  revert t. induction pre as [|x r IH]; intros t; [simpl; lia|].
  change (record_suffixes (x :: r) c t) with (record_suffixes r c (table_incr (x :: r) c t)).
  rewrite IH, count_of_table_incr, !count_occ_pairs.
  change (nonempty_suffixes (x :: r)) with ((x :: r) :: nonempty_suffixes r).
  destruct (ascii_dec c d) as [->|]; [|cbv beta iota; destruct (list_eq_dec _ _ _); lia].
  destruct (list_eq_dec ascii_dec s (x :: r)) as [->|Hs].
  - rewrite count_occ_cons_eq by reflexivity. lia.
  - rewrite count_occ_cons_neq by congruence. lia.
Qed.

Lemma fold_windows_count (corpus : str) (n : nat) (l : list nat) (t : Table) (s : str) (d : ascii) :
  count_of (fold_left (record_window corpus n) l t) s d =
  count_of t s d +
  count_occ obs_eq_dec
    (flat_map (fun i =>
                 map (fun suf => (suf, nth (i + n) corpus " "%char))
                     (nonempty_suffixes (slice corpus i (i + n)))) l) (s, d).
Proof.
  revert t. induction l as [|i l IH]; intros t; simpl; [lia|].
  rewrite IH, count_occ_app. unfold record_window.
  rewrite record_suffixes_count. lia.
Qed.

(** Each suffix length occurs once among the non-empty suffixes. *)
Lemma count_nonempty_suffixes (w s : str) :
  count_occ (list_eq_dec ascii_dec) (nonempty_suffixes w) s =
  if (1 <=? length s) && (length s <=? length w)
     && str_eqb (skipn (length w - length s) w) s
  then 1 else 0.
Proof.
  induction w as [|x r IH]; [destruct s; reflexivity|].
  change (nonempty_suffixes (x :: r)) with ((x :: r) :: nonempty_suffixes r).
  change (length (x :: r)) with (S (length r)).
  destruct (list_eq_dec ascii_dec (x :: r) s) as [<-|Hne].
  - rewrite count_occ_cons_eq by reflexivity. rewrite IH.
    change (length (x :: r)) with (S (length r)).
    rewrite (proj2 (Nat.leb_gt (S (length r)) (length r))) by lia.
    rewrite andb_false_r, Nat.sub_diag, Nat.leb_refl.
    unfold str_eqb. destruct (list_eq_dec ascii_dec (skipn 0 (x :: r)) (x :: r)) as [_|N];
      [reflexivity|simpl in N; congruence].
  - rewrite count_occ_cons_neq by exact Hne. rewrite IH.
    destruct (Nat.eq_dec (length s) (S (length r))) as [Hl|Hl].
    + rewrite Hl, Nat.sub_diag.
      rewrite (proj2 (Nat.leb_gt (S (length r)) (length r))) by lia.
      unfold str_eqb.
      destruct (list_eq_dec ascii_dec (skipn 0 (x :: r)) s) as [E|_]; [simpl in E; congruence|].
      rewrite !andb_false_r. reflexivity.
    + destruct (length s <=? length r) eqn:E1.
      * apply Nat.leb_le in E1.
        rewrite (proj2 (Nat.leb_le (length s) (S (length r)))) by lia.
        replace (S (length r) - length s) with (S (length r - length s)) by lia.
        reflexivity.
      * apply Nat.leb_gt in E1.
        rewrite (proj2 (Nat.leb_gt (length s) (S (length r)))) by lia.
        rewrite !andb_false_r. reflexivity.
Qed.

Lemma count_of_nil (s : str) (d : ascii) : count_of [] s d = 0.
Proof. reflexivity. Qed.

Lemma pooled_windows (corpus : str) (n : nat) (l : list nat) (s : str) (d : ascii) :
  1 <= length s <= n ->
  (forall i, In i l -> i + n < length corpus) ->
  count_occ obs_eq_dec
    (flat_map (fun i =>
                 map (fun suf => (suf, nth (i + n) corpus " "%char))
                     (nonempty_suffixes (slice corpus i (i + n)))) l) (s, d) =
  length (filter (fun i => str_eqb (skipn (n - length s) (slice corpus i (i + n))) s
                           && (if ascii_dec (nth (i + n) corpus " "%char) d then true else false)) l).
Proof.
  intros Hs. induction l as [|i l IH]; intros Hl; [reflexivity|].
  simpl flat_map. rewrite count_occ_app, IH by (intros j Hj; apply Hl; simpl; auto).
  rewrite count_occ_pairs, count_nonempty_suffixes.
  assert (Hw : length (slice corpus i (i + n)) = n).
  { unfold slice. rewrite length_firstn, length_skipn.
    specialize (Hl i (or_introl eq_refl)). lia. }
  rewrite Hw.
  rewrite (proj2 (Nat.leb_le 1 (length s))), (proj2 (Nat.leb_le (length s) n)) by lia.
  simpl filter.
  destruct (str_eqb (skipn (n - length s) (slice corpus i (i + n))) s);
    destruct (ascii_dec (nth (i + n) corpus " "%char) d); simpl; lia.
Qed.

(** C2: the construction adds, for every window [i] and every non-empty
    suffix of its context, one to [table[suffix][next]]: the counts are
    those of the spec's list of observations, keys have 1 to [n]
    characters, and the count of a context [s] pools every window whose
    context ends with [s]. *)
Theorem Ngram_init_counts (corpus : str) (n : nat) (s : str) (d : ascii) :
  count_of (table (Ngram_init corpus n)) s d =
    count_occ obs_eq_dec (observations corpus n) (s, d)
  /\ (forall e, In e (table (Ngram_init corpus n)) -> 1 <= length (fst e) <= n)
  /\ (1 <= length s <= n ->
      count_of (table (Ngram_init corpus n)) s d =
      length (filter (fun i => str_eqb (skipn (n - length s) (slice corpus i (i + n))) s
                               && (if ascii_dec (nth (i + n) corpus " "%char) d then true else false))
                     (seq 0 (length corpus - n)))).
Proof.
  assert (Hc : count_of (table (Ngram_init corpus n)) s d =
               count_occ obs_eq_dec (observations corpus n) (s, d)).
  { unfold Ngram_init, observations; simpl. rewrite fold_windows_count. reflexivity. }
  split; [exact Hc|split].
  - intros e He. exact (proj1 (proj1 (Forall_forall _ _) (build_entries_ok corpus n) e He)).
  - intros Hs. rewrite Hc. unfold observations.
    apply pooled_windows; [exact Hs|apply window_in_range].
Qed.

(** ** Weighted draws *)

Lemma accumulate_length (acc : nat) (ws : list nat) : length (accumulate acc ws) = length ws.
Proof. revert acc; induction ws; simpl; auto. Qed.

Lemma accumulate_shift (acc : nat) (ws : list nat) :
  accumulate acc ws = map (Nat.add acc) (accumulate 0 ws).
Proof.
  revert acc; induction ws as [|w ws IH]; intros acc; simpl; [reflexivity|].
  rewrite (IH (acc + w)), (IH w), map_map. f_equal.
  apply map_ext. intros; lia.
Qed.

Lemma accumulate_last (acc : nat) (ws : list nat) :
  ws <> [] -> exists l, accumulate acc ws = l ++ [acc + list_sum ws].
Proof.
  revert acc; induction ws as [|w ws IH]; intros acc Hne; [congruence|].
  destruct ws as [|w' ws'].
  - exists []. simpl. f_equal. f_equal. lia.
  - destruct (IH (acc + w)) as [l Hl]; [discriminate|].
    exists ((acc + w) :: l). simpl accumulate in *. rewrite Hl. simpl.
    f_equal. f_equal. f_equal. simpl. lia.
Qed.

Lemma bisect_count_le (a : list nat) (x : nat) : bisect_count a x <= length a.
Proof. induction a as [|w a IH]; simpl; [lia|]. destruct (x <? w); simpl; lia. Qed.

Lemma bisect_count_shift (l : list nat) (w x : nat) :
  w <= x -> bisect_count (map (Nat.add w) l) x = bisect_count l (x - w).
Proof.
  intros Hw. induction l as [|a l IH]; simpl; [reflexivity|].
  destruct (x <? w + a) eqn:E1, (x - w <? a) eqn:E2; rewrite ?IH;
    try reflexivity; apply Nat.ltb_lt in E1 || apply Nat.ltb_ge in E1;
    apply Nat.ltb_lt in E2 || apply Nat.ltb_ge in E2; lia.
Qed.

Lemma bisect_count_lt (ws : list nat) (x : nat) :
  x < list_sum ws -> bisect_count (accumulate 0 ws) x < length ws.
Proof.
  revert x; induction ws as [|w ws IH]; intros x Hx; simpl in *; [lia|].
  destruct (x <? w) eqn:E; [lia|]. apply Nat.ltb_ge in E.
  rewrite accumulate_shift, bisect_count_shift by lia.
  specialize (IH (x - w)). lia.
Qed.

Lemma bisect_count_firstn (a : list nat) (m x : nat) :
  bisect_count (firstn m a) x = Nat.min m (bisect_count a x).
Proof.
  revert m; induction a as [|w a IH]; intros [|m]; simpl; try reflexivity; try lia.
  destruct (x <? w); [reflexivity|]. rewrite IH. reflexivity.
Qed.

(** Below the total weight, the clamp [hi = n - 1] of [choices] is inert. *)
Lemma pick_unclamped (ctr : counter) (x : nat) :
  x < total ctr ->
  pick ctr x = nth_error (map fst ctr) (bisect_count (accumulate 0 (map snd ctr)) x).
Proof.
  intros Hx. unfold pick, bisect_right. simpl skipn.
  rewrite Nat.add_0_l, Nat.sub_0_r, bisect_count_firstn.
  pose proof (bisect_count_lt (map snd ctr) x Hx) as Hlt.
  rewrite !length_map in *. f_equal. lia.
Qed.

Lemma pick_some (ctr : counter) (x : nat) :
  ctr <> [] -> exists c, pick ctr x = Some c /\ In c (map fst ctr).
Proof.
  intros Hne. unfold pick, bisect_right. simpl skipn. rewrite Nat.add_0_l, Nat.sub_0_r.
  set (i := bisect_count _ x).
  assert (Hi : i < length (map fst ctr)).
  { unfold i. pose proof (bisect_count_le (firstn (length (map fst ctr) - 1)
                                             (accumulate 0 (map snd ctr))) x) as H.
    rewrite length_firstn in H. destruct ctr; [congruence|]. simpl in *. lia. }
  destruct (nth_error (map fst ctr) i) as [c|] eqn:E.
  - exists c. split; [reflexivity|]. eapply nth_error_In; eauto.
  - apply nth_error_None in E. lia.
Qed.

Lemma total_pos (ctr : counter) :
  ctr <> [] -> Forall (fun kv => 0 < snd kv) ctr -> 0 < total ctr.
Proof.
  intros Hne Hall. destruct ctr as [|[k v] r]; [congruence|].
  inversion Hall; subst. unfold total. simpl in *. lia.
Qed.

Lemma seq_add_shift (w a T : nat) : seq (w + a) T = map (Nat.add w) (seq a T).
Proof. revert a; induction T as [|T IH]; intros a; simpl; [reflexivity|]. rewrite <- IH. f_equal. f_equal. lia. Qed.

Lemma filter_map_length {A B : Type} (p : B -> bool) (f : A -> B) (l : list A) :
  length (filter p (map f l)) = length (filter (fun x => p (f x)) l).
Proof. induction l as [|a l IH]; simpl; [reflexivity|]. destruct (p (f a)); simpl; auto. Qed.

Lemma filter_const_length {A : Type} (p : A -> bool) (b : bool) (l : list A) :
  (forall x, In x l -> p x = b) -> length (filter p l) = if b then length l else 0.
Proof.
  intros H. induction l as [|a l IH]; simpl; [destruct b; reflexivity|].
  rewrite (H a (or_introl eq_refl)).
  assert (IH' := IH (fun x Hx => H x (or_intror Hx))).
  destruct b; simpl; rewrite IH'; reflexivity.
Qed.

(** Number of draws in [0, total) for which the candidate [k] comes out:
    the sum of the weights recorded under [k]. *)
Lemma pick_count (ctr : counter) (k : ascii) :
  NoDup (map fst ctr) ->
  length (filter (fun x => opt_ascii_eqb (pick ctr x) k) (seq 0 (total ctr))) =
  counter_get ctr k.
Proof.
  intros Hnd.
  rewrite (filter_ext_in _ (fun x => opt_ascii_eqb
             (nth_error (map fst ctr) (bisect_count (accumulate 0 (map snd ctr)) x)) k))
    by (intros x Hx; apply in_seq in Hx; rewrite pick_unclamped by lia; reflexivity).
  induction ctr as [|[k0 w] r IH]; [reflexivity|].
  inversion Hnd as [|? ? Hk0 Hr]; subst.
  unfold total; simpl map; simpl list_sum. fold (total r).
  rewrite seq_app, filter_app, length_app.
  replace (seq (0 + w) (total r)) with (map (Nat.add w) (seq 0 (total r)))
    by (rewrite <- seq_add_shift; f_equal; lia).
  rewrite filter_map_length.
  rewrite (filter_const_length _ (if ascii_dec k0 k then true else false)).
  2:{ intros x Hx. apply in_seq in Hx. simpl.
      rewrite (proj2 (Nat.ltb_lt x w)) by lia. reflexivity. }
  rewrite (filter_ext_in _ (fun x => opt_ascii_eqb
             (nth_error (map fst r) (bisect_count (accumulate 0 (map snd r)) x)) k)).
  2:{ intros x Hx. simpl.
      rewrite (proj2 (Nat.ltb_ge (w + x) w)) by lia.
      rewrite accumulate_shift, bisect_count_shift by lia.
      replace (w + x - w) with x by lia. reflexivity. }
  rewrite length_seq, IH by exact Hr. simpl.
  destruct (ascii_dec k0 k) as [->|]; [|lia].
  assert (Hz : counter_get r k = 0).
  { clear -Hk0. induction r as [|[k1 v1] r IH]; simpl; [reflexivity|].
    destruct (ascii_dec k1 k) as [->|]; [simpl in Hk0; tauto|].
    apply IH. simpl in Hk0. tauto. }
  lia.
Qed.

Lemma build_counters_ok (corpus : str) (n : nat) : counters_ok (table (Ngram_init corpus n)).
Proof.
  unfold counters_ok. eapply Forall_impl; [|apply build_entries_ok].
  intros e (_ & Hne & Hc & _). split; [exact Hne|].
  eapply Forall_impl; [|exact Hc]. intros kv [Hp _]. exact Hp.
Qed.

Lemma last_n_suffix (n : nat) (pre : str) :
  1 <= n -> exists p, pre = p ++ last_n n pre /\ length (last_n n pre) = Nat.min n (length pre).
Proof.
  intros Hn. destruct n as [|m]; [lia|]. unfold last_n.
  exists (firstn (length pre - S m) pre). split.
  - symmetry. apply firstn_skipn.
  - rewrite length_skipn. lia.
Qed.

Lemma last_n_length (n : nat) (pre : str) : 1 <= n -> length (last_n n pre) <= n.
Proof. intros Hn. destruct (last_n_suffix n pre Hn) as (p & _ & ->). lia. Qed.

Section Sampling.

Context {St : Type}.
Variable raw : St -> nat * St.

Lemma draw_counter_pick (ctr : counter) (s : St) :
  ctr <> [] -> 0 < total ctr ->
  draw_counter raw ctr s =
  let (r, s') := raw s in
  match pick ctr (r mod total ctr) with Some c => inr (c, s') | None => inl IndexError end.
Proof.
  intros Hne Hpos. unfold draw_counter, choices.
  rewrite accumulate_length, !length_map, Nat.eqb_refl.
  change (negb true) with false. cbv beta iota.
  destruct (accumulate_last 0 (map snd ctr)) as [l Hl].
  { destruct ctr; [congruence|discriminate]. }
  assert (Hr : rev (accumulate 0 (map snd ctr)) = total ctr :: rev l).
  { rewrite Hl, rev_app_distr. reflexivity. }
  rewrite Hr. cbv beta iota.
  destruct (total ctr =? 0) eqn:E; [apply Nat.eqb_eq in E; lia|].
  unfold bind, randbelow. destruct (raw s) as [r s']. cbv beta iota.
  unfold pick. rewrite length_map. destruct (nth_error _ _); reflexivity.
Qed.

Lemma draw_counter_ok (ctr : counter) (s : St) :
  ctr <> [] -> Forall (fun kv => 0 < snd kv) ctr ->
  exists c s', draw_counter raw ctr s = inr (c, s') /\ In c (map fst ctr).
Proof.
  intros Hne Hpos. rewrite draw_counter_pick by auto using total_pos.
  destruct (raw s) as [r s'].
  destruct (pick_some ctr (r mod total ctr) Hne) as (c & -> & Hin). eauto.
Qed.

Lemma choice_ok {A : Type} (l : list A) (s : St) :
  l <> [] -> exists a s', choice raw l s = inr (a, s') /\ In a l.
Proof.
  intros Hne. destruct l as [|x l']; [congruence|].
  unfold choice, bind, randbelow, ret. destruct (raw s) as [r s'].
  exists (nth (r mod length (x :: l')) (x :: l') x), s'. split; [reflexivity|].
  apply nth_In, Nat.mod_upper_bound. simpl. lia.
Qed.

Lemma fallback_ok (t : Table) (s : St) :
  t <> [] -> counters_ok t -> exists c s', fallback raw t s = inr (c, s').
Proof.
  intros Hne Hok. unfold fallback, bind.
  destruct (choice_ok (map fst t) s) as (k & s1 & -> & Hk).
  { destruct t; [congruence|discriminate]. }
  destruct (In_lookup k t Hk) as [ctr Hl]. rewrite Hl.
  apply lookup_In in Hl.
  destruct (proj1 (Forall_forall _ _) Hok _ Hl) as [Hc Hp].
  destruct (draw_counter_ok ctr s1 Hc Hp) as (c & s' & E & _). eauto.
Qed.

Lemma fallback_empty (s : St) : fallback raw [] s = inl IndexError.
Proof. reflexivity. Qed.

Lemma lookup_loop_ok (t : Table) (pre : str) (s : St) :
  t <> [] -> counters_ok t -> exists c s', lookup_loop raw t pre s = inr (c, s').
Proof.
  intros Hne Hok. induction pre as [|x r IH]; simpl; [apply fallback_ok; auto|].
  destruct (lookup (x :: r) t) as [ctr|] eqn:Hl; [|exact IH].
  apply lookup_In in Hl.
  destruct (proj1 (Forall_forall _ _) Hok _ Hl) as [Hc Hp].
  destruct (draw_counter_ok ctr s Hc Hp) as (c & s' & E & _). eauto.
Qed.

Lemma lookup_loop_empty (pre : str) (s : St) : lookup_loop raw [] pre s = inl IndexError.
Proof. induction pre as [|x r IH]; simpl; [reflexivity|exact IH]. Qed.

Lemma lookup_loop_hit (t : Table) (p sfx : str) (ctr : counter) :
  sfx <> [] -> lookup sfx t = Some ctr ->
  (forall p' s', p ++ sfx = p' ++ s' -> length sfx < length s' -> lookup s' t = None) ->
  lookup_loop raw t (p ++ sfx) = draw_counter raw ctr.
Proof.
  intros Hne Hl. induction p as [|y p IH]; intros Hlonger; simpl.
  - destruct sfx as [|x r]; [congruence|]. simpl. rewrite Hl. reflexivity.
  - rewrite (Hlonger [] (y :: p ++ sfx)) by (reflexivity || (simpl; rewrite length_app; lia)).
    apply IH. intros p' s' Hp Hlen.
    apply (Hlonger (y :: p') s'); [simpl; rewrite Hp; reflexivity|exact Hlen].
Qed.

Lemma lookup_loop_miss (t : Table) (pre : str) :
  (forall p sfx, pre = p ++ sfx -> sfx <> [] -> lookup sfx t = None) ->
  lookup_loop raw t pre = fallback raw t.
Proof.
  induction pre as [|x r IH]; intros Hmiss; simpl; [reflexivity|].
  rewrite (Hmiss [] (x :: r)) by (reflexivity || discriminate).
  apply IH. intros p sfx -> Hne. apply (Hmiss (x :: p) sfx); auto.
Qed.

(** The loop ends after [j] shortenings: at a hit on [pre[j:]], or after
    dropping every character, in the fallback. *)
Lemma lookup_loop_steps (t : Table) (pre : str) :
  exists j, j <= length pre /\
    ((exists ctr, j < length pre /\ lookup (skipn j pre) t = Some ctr /\
                  lookup_loop raw t pre = draw_counter raw ctr)
     \/ (j = length pre /\ lookup_loop raw t pre = fallback raw t)).
Proof.
  induction pre as [|x r IH].
  - exists 0. split; [reflexivity|]. right. auto.
  - simpl lookup_loop. destruct (lookup (x :: r) t) as [ctr|] eqn:Hl.
    + exists 0. split; [lia|]. left. exists ctr. simpl. auto with arith.
    + destruct IH as (j & Hj & [(ctr & Hlt & Hk & E)|(Heq & E)]).
      * exists (S j). split; [simpl; lia|]. left. exists ctr. simpl. auto with arith.
      * exists (S j). split; [simpl; lia|]. right. simpl. auto.
Qed.

End Sampling.

Section Claims.

Context {St : Type}.
Variable raw : St -> nat * St.

Lemma sample_unfold (corpus : str) (n : nat) (pre : str) :
  sample raw (Ngram_init corpus n) pre = lookup_loop raw (table (Ngram_init corpus n)) (last_n n pre).
Proof. reflexivity. Qed.

(** C3: [Sample] truncates the context to its last [n] characters and
    returns a draw from the counter of the longest suffix found in the
    table; only when no non-empty suffix is found does it fall back to a
    key chosen among the (distinct) keys of the table.  A draw from a
    counter returns each candidate for exactly [count] of the [total]
    values of the draw. *)
Theorem sample_backoff (corpus : str) (n : nat) (pre : str) :
  let ng := Ngram_init corpus n in
  let ctx := last_n n pre in
  (1 <= n -> exists p, pre = p ++ ctx /\ length ctx = Nat.min n (length pre))
  /\ (forall p sfx ctr,
        ctx = p ++ sfx -> sfx <> [] -> lookup sfx (table ng) = Some ctr ->
        (forall p' s', ctx = p' ++ s' -> length sfx < length s' -> lookup s' (table ng) = None) ->
        forall st, sample raw ng pre st = draw_counter raw ctr st)
  /\ ((forall p sfx, ctx = p ++ sfx -> sfx <> [] -> lookup sfx (table ng) = None) ->
      forall st, sample raw ng pre st = fallback raw (table ng) st)
  /\ NoDup (map fst (table ng))
  /\ (forall sfx ctr, lookup sfx (table ng) = Some ctr ->
        NoDup (map fst ctr) /\ Forall (fun kv => 0 < snd kv) ctr /\
        (forall st, draw_counter raw ctr st =
           let (r, st') := raw st in
           match pick ctr (r mod total ctr) with
           | Some c => inr (c, st')
           | None => inl IndexError
           end) /\
        (forall k, length (filter (fun x => opt_ascii_eqb (pick ctr x) k) (seq 0 (total ctr)))
                   = counter_get ctr k)).
Proof.
  intros ng ctx. split; [|split; [|split; [|split]]].
  - apply last_n_suffix.
  - intros p sfx ctr Hctx Hne Hl Hlonger st.
    change (sample raw ng pre st) with (lookup_loop raw (table ng) ctx st).
    rewrite Hctx, (lookup_loop_hit raw _ p sfx ctr Hne Hl); [reflexivity|].
    rewrite <- Hctx. exact Hlonger.
  - intros Hmiss st.
    change (sample raw ng pre st) with (lookup_loop raw (table ng) ctx st).
    rewrite (lookup_loop_miss raw _ ctx Hmiss). reflexivity.
  - apply build_nodup.
  - intros sfx ctr Hl. destruct (build_lookup_ok corpus n sfx ctr Hl) as (_ & Hne & Hc & Hnd).
    assert (Hp : Forall (fun kv => 0 < snd kv) ctr).
    { eapply Forall_impl; [|exact Hc]. intros kv [H _]. exact H. }
    split; [exact Hnd|split; [exact Hp|split]].
    + intros st. apply draw_counter_pick; [exact Hne|apply total_pos; assumption].
    + intros k. apply pick_count, Hnd.
Qed.

(** C9: with [len(corpus) > n >= 1] the table is non-empty and every
    [Sample] succeeds, after at most [n] shortenings of the context and
    then either a draw from the counter found or one fallback draw. *)
Theorem sample_terminates (corpus : str) (n : nat) :
  n < length corpus -> 1 <= n ->
  let ng := Ngram_init corpus n in
  table ng <> [] /\
  forall pre,
    (forall st, exists c st', sample raw ng pre st = inr (c, st')) /\
    exists j, j <= n /\
      ((exists ctr, j < length (last_n n pre) /\
                    lookup (skipn j (last_n n pre)) (table ng) = Some ctr /\
                    (forall st, sample raw ng pre st = draw_counter raw ctr st))
       \/ (j = length (last_n n pre) /\
           forall st, sample raw ng pre st = fallback raw (table ng) st)).
Proof.
  intros Hlen Hn ng.
  assert (Hne : table ng <> []).
  { unfold ng. intros H. apply build_empty_iff in H. lia. }
  split; [exact Hne|]. intros pre. split.
  - intros st. unfold ng. rewrite sample_unfold.
    apply lookup_loop_ok; [exact Hne|apply build_counters_ok].
  - destruct (lookup_loop_steps raw (table ng) (last_n n pre))
      as (j & Hj & [(ctr & Hlt & Hk & E)|(Heq & E)]);
    pose proof (last_n_length n pre Hn); exists j; split; try lia.
    + left. exists ctr. split; [exact Hlt|split; [exact Hk|]].
      intros st. change (sample raw ng pre st) with (lookup_loop raw (table ng) (last_n n pre) st).
      rewrite E. reflexivity.
    + right. split; [exact Heq|].
      intros st. change (sample raw ng pre st) with (lookup_loop raw (table ng) (last_n n pre) st).
      rewrite E. reflexivity.
Qed.

Lemma fallback_fails_iff (t : Table) (st : St) :
  counters_ok t -> (fallback raw t st = inl IndexError <-> t = []).
Proof.
  intros Hok. split.
  - intros H. destruct t as [|e t']; [reflexivity|].
    destruct (fallback_ok raw (e :: t') st) as (c & st' & E); [discriminate|exact Hok|].
    congruence.
  - intros ->. reflexivity.
Qed.

Lemma phrase_loop_empty_table (ng : Ngram) (k : nat) (s : str) (st : St) :
  table ng = [] -> 1 <= k -> phrase_loop raw ng k s st = inl IndexError.
Proof.
  intros Ht Hk. destruct k as [|k]; [lia|]. simpl. unfold bind, sample.
  rewrite Ht, lookup_loop_empty. reflexivity.
Qed.

(** C10: with [len(corpus) <= n] the construction still returns a model,
    whose table is empty; then every [Sample] fails at the fallback with an
    [IndexError], and so do [Phrase] and [GeneratePassword] for any
    non-empty template.  For built tables the fallback fails exactly when
    the table is empty. *)
Theorem short_corpus_fails (corpus : str) (n : nat) :
  length corpus <= n ->
  table (Ngram_init corpus n) = [] /\
  (forall pre st, sample raw (Ngram_init corpus n) pre st = inl IndexError) /\
  (forall len st, 1 <= len -> phrase raw (Ngram_init corpus n) len st = inl IndexError) /\
  (forall template st, template <> [] ->
     generate_password raw (Ngram_init corpus n) template st = inl IndexError) /\
  (forall corpus' n' st,
     fallback raw (table (Ngram_init corpus' n')) st = inl IndexError <->
     table (Ngram_init corpus' n') = []).
Proof.
  intros Hlen.
  assert (Ht : table (Ngram_init corpus n) = []) by (apply build_empty_iff; lia).
  split; [exact Ht|split; [|split; [|split]]].
  - intros pre st. rewrite sample_unfold, Ht. apply lookup_loop_empty.
  - intros len st Hl. apply phrase_loop_empty_table; assumption.
  - intros template st Hne. unfold generate_password, bind, phrase.
    rewrite phrase_loop_empty_table by first [assumption | destruct template; [congruence|simpl; lia]].
    reflexivity.
  - intros corpus' n' st. apply fallback_fails_iff, build_counters_ok.
Qed.

(** C4, as the code does it: construction raises nothing (its result
    type has no error); it returns an empty table exactly when
    [len(corpus) <= n] or [n = 0], and on such a table every [Sample]
    raises an [IndexError]. *)
Theorem Ngram_init_never_raises (corpus : str) (n : nat) :
  (table (Ngram_init corpus n) = [] <-> length corpus <= n \/ n = 0) /\
  (table (Ngram_init corpus n) = [] ->
   forall pre st, sample raw (Ngram_init corpus n) pre st = inl IndexError).
Proof.
  split; [apply build_empty_iff|].
  intros Ht pre st. rewrite sample_unfold, Ht. apply lookup_loop_empty.
Qed.

End Claims.

Section Generation.

Context {St : Type}.
Variable raw : St -> nat * St.

Lemma pop_rev_cons (x : ascii) (ph : list ascii) (st : St) :
  pop (rev (x :: ph)) st = inr ((x, rev ph), st).
Proof. unfold pop. rewrite rev_involutive. reflexivity. Qed.

Lemma pop_ok (l : list ascii) (st : St) :
  1 <= length l -> exists x l', pop l st = inr ((x, l'), st) /\ length l' = length l - 1.
Proof.
  intros Hl. unfold pop. destruct (rev l) as [|x r] eqn:E.
  - apply (f_equal (@length ascii)) in E. rewrite length_rev in E. simpl in E. lia.
  - exists x, (rev r). split; [reflexivity|].
    apply (f_equal (@length ascii)) in E. rewrite length_rev in E. simpl in E.
    rewrite length_rev. lia.
Qed.

Lemma choice_nth {A : Type} (x : A) (l : list A) (st : St) :
  choice raw (x :: l) st =
  let (r, st') := raw st in inr (nth (r mod length (x :: l)) (x :: l) x, st').
Proof. unfold choice, bind, randbelow, ret. destruct (raw st); reflexivity. Qed.

Lemma template_loop_refines (template : str) (p pwd : list ascii) (st : St) :
  template_loop raw template (rev p) pwd st = apply_spec raw template p pwd st.
Proof.
  revert p pwd st. induction template as [|c rest IH]; intros p pwd st; [reflexivity|].
  simpl template_loop. simpl apply_spec.
  destruct (ascii_dec c "u"); [|destruct (ascii_dec c "l"); [|destruct (ascii_dec c "m");
    [|destruct (ascii_dec c "d"); [|destruct (ascii_dec c "p")]]]].
  - destruct p as [|x ph]; [reflexivity|]. unfold bind. rewrite pop_rev_cons. apply IH.
  - destruct p as [|x ph]; [reflexivity|]. unfold bind. rewrite pop_rev_cons. apply IH.
  - destruct p as [|x ph]; [reflexivity|]. unfold bind. rewrite pop_rev_cons. simpl fst; simpl snd.
    unfold randbelow, ret. destruct (raw st) as [r st'].
    assert (Hr : r mod 2 < 2) by (apply Nat.mod_upper_bound; lia).
    destruct (r mod 2) as [|[|k]]; [| |lia]; apply IH.
  - unfold bind, randbelow, ret. destruct (raw st) as [r st']. apply IH.
  - unfold bind, randbelow, ret. destruct (raw st) as [r st']. apply IH.
  - apply IH.
Qed.

Ltac template_step IH :=
  match goal with
  | |- exists _ _, template_loop _ ?rest ?ph ?pwd ?st = _ /\ _ =>
      let out := fresh "out" in
      let st' := fresh "st'" in
      destruct (IH ph pwd st) as (out & st' & ? & ?); [lia|];
      exists out, st'; split; [assumption|rewrite length_app in *; simpl in *; lia]
  end.

Lemma template_loop_ok (template : str) (ph pwd : list ascii) (st : St) :
  length template <= length ph ->
  exists out st', template_loop raw template ph pwd st = inr (out, st') /\
                  length out = length pwd + length template.
Proof.
  revert ph pwd st. induction template as [|c rest IH]; intros ph pwd st Hl.
  - exists pwd, st. simpl. split; [reflexivity|lia].
  - simpl in Hl. simpl template_loop.
    destruct (ascii_dec c "u"); [|destruct (ascii_dec c "l"); [|destruct (ascii_dec c "m");
      [|destruct (ascii_dec c "d"); [|destruct (ascii_dec c "p")]]]];
      unfold bind; try (destruct (pop_ok ph st) as (x & l' & -> & Hl'); [lia|]);
      unfold randbelow, ret; try destruct (raw st) as [r st1];
      cbv beta iota; cbn [fst snd]; template_step IH.
Qed.

(** The characters of a phrase: the [i]-th one is the result of [Sample]
    on the first [i] characters, the whole string built so far. *)
Lemma phrase_loop_trace (ng : Ngram) (k : nat) (s0 s : str) (st st' : St) :
  phrase_loop raw ng k s0 st = inr (s, st') ->
  exists suf, s = s0 ++ suf /\ length suf = k /\
    forall i, i < k -> exists st1 st2,
      sample raw ng (firstn (length s0 + i) s) st1 = inr (nth (length s0 + i) s " "%char, st2).
Proof.
  revert s0 st. induction k as [|k IH]; intros s0 st H.
  - simpl in H. injection H as <- <-. exists []. rewrite app_nil_r. split; [reflexivity|].
    split; [reflexivity|]. intros; lia.
  - simpl in H. unfold bind in H. destruct (sample raw ng s0 st) as [e|[c st1]] eqn:Hs;
      [discriminate|].
    destruct (IH (s0 ++ [c]) st1 H) as (suf & -> & Hlen & Hi).
    exists (c :: suf). rewrite <- app_assoc. simpl. split; [reflexivity|]. split; [lia|].
    intros [|i] Hlt.
    + exists st, st1. rewrite Nat.add_0_r, firstn_app, Nat.sub_diag, firstn_all, app_nil_r.
      rewrite app_nth2, Nat.sub_diag by lia. exact Hs.
    + destruct (Hi i) as (st2 & st3 & E); [lia|].
      exists st2, st3. rewrite length_app in E. simpl in E.
      rewrite <- app_assoc in E. simpl in E.
      replace (length s0 + S i) with (length s0 + 1 + i) by lia. exact E.
Qed.

Lemma phrase_loop_ok (ng : Ngram) (k : nat) (s0 : str) (st : St) :
  table ng <> [] -> counters_ok (table ng) ->
  exists s st', phrase_loop raw ng k s0 st = inr (s, st').
Proof.
  intros Hne Hok. revert s0 st. induction k as [|k IH]; intros s0 st.
  { exists s0, st. reflexivity. }
  change (phrase_loop raw ng (S k) s0 st)
    with (bind (sample raw ng s0) (fun c => phrase_loop raw ng k (s0 ++ [c])) st).
  unfold bind. destruct (lookup_loop_ok raw (table ng) (last_n (order ng) s0) st Hne Hok)
    as (c & st1 & E).
  change (sample raw ng s0 st) with (lookup_loop raw (table ng) (last_n (order ng) s0) st).
  rewrite E. apply IH.
Qed.

Lemma counter_draw_in_corpus (corpus : str) (n : nat) (s : str) (ctr : counter)
      (c : ascii) (st st' : St) :
  lookup s (table (Ngram_init corpus n)) = Some ctr ->
  draw_counter raw ctr st = inr (c, st') -> In c corpus.
Proof.
  intros Hl Hd. destruct (build_lookup_ok corpus n s ctr Hl) as (_ & Hne & Hc & _).
  assert (Hp : Forall (fun kv => 0 < snd kv) ctr)
    by (eapply Forall_impl; [|exact Hc]; intros kv [H _]; exact H).
  destruct (draw_counter_ok raw ctr st Hne Hp) as (c' & st'' & E & Hin).
  rewrite Hd in E. injection E as -> _.
  apply in_map_iff in Hin. destruct Hin as ([k v] & <- & Hkv).
  exact (proj2 (proj1 (Forall_forall _ _) Hc _ Hkv)).
Qed.

Lemma sample_in_corpus (corpus : str) (n : nat) (pre : str) (c : ascii) (st st' : St) :
  sample raw (Ngram_init corpus n) pre st = inr (c, st') -> In c corpus.
Proof.
  rewrite sample_unfold.
  destruct (lookup_loop_steps raw (table (Ngram_init corpus n)) (last_n n pre))
    as (j & _ & [(ctr & _ & Hk & E)|(_ & E)]); rewrite E.
  - apply counter_draw_in_corpus with (n := n) (st := _) (s := skipn j (last_n n pre)) (ctr := ctr); exact Hk.
  - unfold fallback, bind. destruct (choice raw _ st) as [e|[k st1]]; [discriminate|].
    destruct (lookup k _) as [ctr|] eqn:Hl; [|discriminate].
    apply counter_draw_in_corpus with (n := n) (st := _) (s := k) (ctr := ctr); exact Hl.
Qed.

End Generation.

Section GenerationClaims.

Context {St : Type}.
Variable raw : St -> nat * St.

Lemma built_phrase_ok (corpus : str) (n len : nat) (st : St) :
  n < length corpus -> 1 <= n ->
  exists s st', phrase raw (Ngram_init corpus n) len st = inr (s, st').
Proof.
  intros Hlen Hn. apply phrase_loop_ok; [|apply build_counters_ok].
  intros H. apply build_empty_iff in H. lia.
Qed.

(** C1: on a model built with [len(corpus) > n >= 1], [GeneratePassword]
    succeeds for every template and its result has the template's length;
    the empty template gives the empty string. *)
Theorem generate_password_length (corpus : str) (n : nat) (template : str) (st : St) :
  n < length corpus -> 1 <= n ->
  (exists pwd st', generate_password raw (Ngram_init corpus n) template st = inr (pwd, st')
                   /\ length pwd = length template)
  /\ generate_password raw (Ngram_init corpus n) [] st = inr ([], st).
Proof.
  intros Hlen Hn. split; [|reflexivity].
  destruct (built_phrase_ok corpus n (length template) st Hlen Hn) as (p & st1 & Hp).
  destruct (phrase_loop_trace raw _ _ _ _ _ _ Hp) as (suf & -> & Hsuf & _).
  destruct (template_loop_ok raw template (rev ([] ++ suf)) [] st1) as (out & st' & E & Ho).
  { rewrite length_rev. simpl. lia. }
  exists out, st'. split; [|simpl in Ho; exact Ho].
  unfold generate_password, bind. rewrite Hp. exact E.
Qed.

(** C5: [GeneratePassword] is the phrase generation followed by the
    spec's directive interpreter, which consumes the phrase front to back,
    one letter per [u], [l] or [m]: the code's reversal of the phrase and
    [pop()] from its end give that order.  [u] upper-cases the letter, [l]
    keeps it, [m] takes [lower] or [upper] on a draw of 0 or 1, and on a
    lowercase letter these two forms differ. *)
Theorem generate_password_consumes (ng : Ngram) (template : str) :
  (forall st, generate_password raw ng template st =
              (p <- phrase raw ng (length template) ;; apply_spec raw template p []) st)
  /\ (forall x, 97 <= nat_of_ascii x <= 122 ->
       lower x = x /\ upper x <> x /\ nat_of_ascii (upper x) + 32 = nat_of_ascii x).
Proof.
  split.
  - intros st. unfold generate_password, bind.
    destruct (phrase raw ng (length template) st) as [e|[p st1]]; [reflexivity|].
    apply template_loop_refines.
  - intros x Hx. unfold lower, upper.
    rewrite (proj2 (Nat.leb_le 97 _)), (proj2 (Nat.leb_le _ 122)) by lia.
    rewrite (proj2 (Nat.leb_gt (nat_of_ascii x) 90)) by lia. rewrite andb_false_r. simpl andb.
    assert (Hn : nat_of_ascii (ascii_of_nat (nat_of_ascii x - 32)) = nat_of_ascii x - 32)
      by (apply nat_ascii_embedding; lia).
    split; [reflexivity|split].
    + intros E. rewrite E in Hn. lia.
    + rewrite Hn. lia.
Qed.

Lemma In_digits (c : ascii) : In c digits <-> 48 <= nat_of_ascii c <= 57.
Proof.
  split.
  - intros H. unfold digits in H. simpl in H.
    repeat (destruct H as [H|H]; [subst c; split; apply Nat.leb_le; reflexivity|]). destruct H.
  - intros H. rewrite <- (ascii_nat_embedding c).
    assert (Hc : nat_of_ascii c = 48 \/ nat_of_ascii c = 49 \/ nat_of_ascii c = 50 \/
                 nat_of_ascii c = 51 \/ nat_of_ascii c = 52 \/ nat_of_ascii c = 53 \/
                 nat_of_ascii c = 54 \/ nat_of_ascii c = 55 \/ nat_of_ascii c = 56 \/
                 nat_of_ascii c = 57) by lia.
    unfold digits. simpl.
    repeat (destruct Hc as [Hc|Hc]; [rewrite Hc; simpl; tauto|]). rewrite Hc. simpl; tauto.
Qed.

(** C6: a [d] emits [digits[r mod 10]] and a [p] emits
    [punctuation[r mod 12]] for the next draw [r], leaving the phrase
    untouched; the ten digits are exactly the decimal digits, the twelve
    punctuation marks are the spec's set, and both lists have no repeats,
    so a uniform index gives a uniform character. *)
Theorem digit_punct_draws :
  (forall rest ph pwd st,
     template_loop raw ("d"%char :: rest) ph pwd st =
     let (r, st') := raw st in
     template_loop raw rest ph (pwd ++ [nth (r mod 10) digits "0"%char]) st')
  /\ (forall rest ph pwd st,
     template_loop raw ("p"%char :: rest) ph pwd st =
     let (r, st') := raw st in
     template_loop raw rest ph (pwd ++ [nth (r mod 12) punctuation "!"%char]) st')
  /\ length digits = 10 /\ NoDup digits
  /\ (forall c, In c digits <-> 48 <= nat_of_ascii c <= 57)
  /\ punctuation = ["!"; "@"; "#"; "$"; "%"; "&"; "*"; "+"; "-"; "="; "?"; ";"]%char
  /\ NoDup punctuation.
Proof.
  split; [|split; [|split; [reflexivity|split; [|split; [exact In_digits|split; [reflexivity|]]]]]].
  - intros rest ph pwd st. simpl template_loop. unfold bind, randbelow, ret.
    destruct (raw st) as [r st']. reflexivity.
  - intros rest ph pwd st. simpl template_loop. unfold bind, randbelow, ret.
    destruct (raw st) as [r st']. reflexivity.
  - unfold digits. simpl. repeat constructor; simpl; intuition discriminate.
  - unfold punctuation. simpl. repeat constructor; simpl; intuition discriminate.
Qed.

(** C7: any template character other than [u], [l], [m], [d], [p] is
    copied without consuming a phrase letter; the uppercase [U], [L], [M],
    [D], [P] are such characters; and on a model built with
    [len(corpus) > n >= 1], [GeneratePassword(M, "X-Y")] is ["X-Y"]. *)
Theorem literal_passthrough (corpus : str) (n : nat) :
  (forall c rest ph pwd st,
     ~ In c ["u"; "l"; "m"; "d"; "p"]%char ->
     template_loop raw (c :: rest) ph pwd st = template_loop raw rest ph (pwd ++ [c]) st)
  /\ (forall c, In c ["U"; "L"; "M"; "D"; "P"]%char -> ~ In c ["u"; "l"; "m"; "d"; "p"]%char)
  /\ (n < length corpus -> 1 <= n -> forall st, exists st',
        generate_password raw (Ngram_init corpus n) (list_ascii_of_string "X-Y") st
        = inr (list_ascii_of_string "X-Y", st')).
Proof.
  split; [|split].
  - intros c rest ph pwd st Hc. simpl template_loop.
    destruct (ascii_dec c "u") as [->|]; [simpl in Hc; tauto|].
    destruct (ascii_dec c "l") as [->|]; [simpl in Hc; tauto|].
    destruct (ascii_dec c "m") as [->|]; [simpl in Hc; tauto|].
    destruct (ascii_dec c "d") as [->|]; [simpl in Hc; tauto|].
    destruct (ascii_dec c "p") as [->|]; [simpl in Hc; tauto|].
    reflexivity.
  - intros c Hc. repeat (destruct Hc as [<-|Hc]; [simpl; intuition discriminate|]). destruct Hc.
  - intros Hlen Hn st.
    destruct (built_phrase_ok corpus n 3 st Hlen Hn) as (p & st1 & Hp).
    exists st1. unfold generate_password, bind. simpl length. rewrite Hp. reflexivity.
Qed.

(** C8: [Phrase(length)] on a model built with [len(corpus) > n >= 1]
    succeeds with exactly [length] characters, all from the corpus, and its
    [i]-th character is a [Sample] on the string of the first [i]
    characters, the whole accumulated string. *)
Theorem phrase_generation (corpus : str) (n len : nat) (st : St) :
  n < length corpus -> 1 <= n ->
  exists s st', phrase raw (Ngram_init corpus n) len st = inr (s, st') /\
    length s = len /\ Forall (fun c => In c corpus) s /\
    (forall i, i < len -> exists st1 st2,
       sample raw (Ngram_init corpus n) (firstn i s) st1 = inr (nth i s " "%char, st2)).
Proof.
  intros Hlen Hn.
  destruct (built_phrase_ok corpus n len st Hlen Hn) as (s & st' & Hp).
  destruct (phrase_loop_trace raw _ _ _ _ _ _ Hp) as (suf & Hs & Hsuf & Hi).
  simpl in Hs. subst s. exists suf, st'. split; [exact Hp|split; [exact Hsuf|split]].
  - apply Forall_forall. intros c Hc.
    destruct (In_nth suf c " "%char Hc) as (i & Hi' & <-).
    destruct (Hi i) as (st1 & st2 & E); [lia|].
    exact (sample_in_corpus raw corpus n _ _ _ _ E).
  - exact Hi.
Qed.

End GenerationClaims.

(** * Witnesses and counterexample, on [abracadabra] with [n = 2] and the
      random source [lcg] *)

Lemma Ngram_init_counts_witness :
  1 <= length ["a"%char] <= 2 /\
  count_of (table (Ngram_init corpus_ex 2)) ["a"%char] "c"%char = 1.
Proof.
  assert (H : 1 <= length ["a"%char] <= 2) by (simpl; lia).
  split; [exact H|].
  rewrite (proj2 (proj2 (Ngram_init_counts corpus_ex 2 ["a"%char] "c"%char)) H).
  vm_compute. reflexivity.
Defined.

Lemma sample_backoff_witness :
  sample lcg (Ngram_init corpus_ex 2) ["x"; "a"]%char 0 =
    draw_counter lcg [("c", 1); ("d", 1); ("b", 1)]%char 0 /\
  sample lcg (Ngram_init corpus_ex 2) ["z"]%char 0 =
    fallback lcg (table (Ngram_init corpus_ex 2)) 0 /\
  exists p, ["x"; "y"; "a"]%char = p ++ last_n 2 ["x"; "y"; "a"]%char.
Proof.
  split; [|split].
  - apply (proj1 (proj2 (sample_backoff lcg corpus_ex 2 ["x"; "a"]%char))
             ["x"%char] ["a"%char] [("c", 1); ("d", 1); ("b", 1)]%char).
    + reflexivity.
    + discriminate.
    + vm_compute. reflexivity.
    + intros p' s' H Hl.
      assert (HL := f_equal (@length ascii) H). rewrite length_app in HL. simpl in HL.
      destruct p' as [|y p'']; [simpl in H; subst s'; vm_compute; reflexivity|simpl in HL, Hl; lia].
  - apply (proj1 (proj2 (proj2 (sample_backoff lcg corpus_ex 2 ["z"]%char)))).
    intros p sfx H Hne. destruct p as [|y p'].
    + simpl in H. subst sfx. vm_compute. reflexivity.
    + destruct p'; [simpl in H; injection H as _ H; congruence|].
      apply (f_equal (@length ascii)) in H. simpl in H. rewrite length_app in H. simpl in H. lia.
  - destruct (proj1 (sample_backoff lcg corpus_ex 2 ["x"; "y"; "a"]%char) (le_S 1 1 (le_n 1)))
      as (p & Hp & _).
    exists p. exact Hp.
Defined.

Lemma sample_terminates_witness :
  2 < length corpus_ex /\ 1 <= 2 /\ table (Ngram_init corpus_ex 2) <> [] /\
  exists c st', sample lcg (Ngram_init corpus_ex 2) ["q"]%char 0 = inr (c, st').
Proof.
  assert (H1 : 2 < length corpus_ex) by (simpl; lia).
  assert (H2 : 1 <= 2) by lia.
  split; [exact H1|split; [exact H2|split]].
  - exact (proj1 (sample_terminates lcg corpus_ex 2 H1 H2)).
  - exact (proj1 (proj2 (sample_terminates lcg corpus_ex 2 H1 H2) ["q"%char]) 0).
Defined.

Lemma short_corpus_fails_witness :
  length ["a"%char] <= 3 /\
  generate_password lcg (Ngram_init ["a"%char] 3) (list_ascii_of_string "X-Y") 0 = inl IndexError.
Proof.
  assert (H : length ["a"%char] <= 3) by (simpl; lia).
  split; [exact H|].
  apply (proj1 (proj2 (proj2 (proj2 (short_corpus_fails lcg ["a"%char] 3 H))))).
  discriminate.
Defined.

Lemma Ngram_init_never_raises_witness :
  table (Ngram_init corpus_ex 0) = [] /\
  sample lcg (Ngram_init corpus_ex 0) ["a"%char] 5 = inl IndexError.
Proof.
  assert (H : table (Ngram_init corpus_ex 0) = [])
    by (apply (proj2 (proj1 (Ngram_init_never_raises lcg corpus_ex 0))); right; reflexivity).
  split; [exact H|].
  exact (proj2 (Ngram_init_never_raises lcg corpus_ex 0) H ["a"%char] 5).
Defined.

(** C4 fails: for an empty corpus with [n = 3] ([len(corpus) <= n]) and
    for [n = 0] ([order < 1]) the construction returns a model, with an
    empty table; the first [Sample] then raises an [IndexError]. *)
Lemma C4_construction_returns_model :
  Ngram_init [] 3 = {| table := []; order := 3 |} /\
  Ngram_init corpus_ex 0 = {| table := []; order := 0 |} /\
  sample lcg (Ngram_init [] 3) [] 0 = inl IndexError.
Proof. vm_compute. auto. Qed.

Lemma generate_password_length_witness :
  2 < length corpus_ex /\ 1 <= 2 /\
  exists pwd st', generate_password lcg (Ngram_init corpus_ex 2) (list_ascii_of_string "ulmdp") 0
                  = inr (pwd, st') /\ length pwd = 5.
Proof.
  assert (H1 : 2 < length corpus_ex) by (simpl; lia).
  assert (H2 : 1 <= 2) by lia.
  split; [exact H1|split; [exact H2|]].
  exact (proj1 (generate_password_length lcg corpus_ex 2 (list_ascii_of_string "ulmdp") 0 H1 H2)).
Defined.

Lemma generate_password_consumes_witness :
  97 <= nat_of_ascii "q" <= 122 /\
  lower "q" = "q"%char /\ upper "q" <> "q"%char /\ nat_of_ascii (upper "q") + 32 = nat_of_ascii "q".
Proof.
  assert (H : 97 <= nat_of_ascii "q" <= 122) by (split; apply Nat.leb_le; reflexivity).
  split; [exact H|].
  exact (proj2 (generate_password_consumes lcg (Ngram_init corpus_ex 2) []) "q"%char H).
Defined.

Lemma digit_punct_draws_witness :
  In "7"%char digits /\ 48 <= nat_of_ascii "7" <= 57.
Proof.
  assert (H : 48 <= nat_of_ascii "7" <= 57) by (split; apply Nat.leb_le; reflexivity).
  split; [|exact H].
  apply (proj2 (proj1 (proj2 (proj2 (proj2 (proj2 (@digit_punct_draws nat lcg))))) "7"%char)).
  exact H.
Defined.

Lemma literal_passthrough_witness :
  2 < length corpus_ex /\ 1 <= 2 /\
  template_loop lcg ["U"%char] [] [] 0 = template_loop lcg [] [] ["U"%char] 0 /\
  exists st', generate_password lcg (Ngram_init corpus_ex 2) (list_ascii_of_string "X-Y") 0
              = inr (list_ascii_of_string "X-Y", st').
Proof.
  assert (H1 : 2 < length corpus_ex) by (simpl; lia).
  assert (H2 : 1 <= 2) by lia.
  split; [exact H1|split; [exact H2|split]].
  - apply (proj1 (literal_passthrough lcg corpus_ex 2)).
    apply (proj1 (proj2 (literal_passthrough lcg corpus_ex 2)) "U"%char). simpl; auto.
  - exact (proj2 (proj2 (literal_passthrough lcg corpus_ex 2)) H1 H2 0).
Defined.

Lemma phrase_generation_witness :
  2 < length corpus_ex /\ 1 <= 2 /\
  exists s st', phrase lcg (Ngram_init corpus_ex 2) 6 0 = inr (s, st') /\ length s = 6.
Proof.
  assert (H1 : 2 < length corpus_ex) by (simpl; lia).
  assert (H2 : 1 <= 2) by lia.
  split; [exact H1|split; [exact H2|]].
  destruct (phrase_generation lcg corpus_ex 2 6 0 H1 H2) as (s & st' & E & L & _).
  exists s, st'. auto.
Defined.

(** * Further properties of the code *)

(** ** The table built by [Ngram.__init__] *)

Lemma str_eqb_spec (a b : str) : str_eqb a b = true <-> a = b.
Proof. unfold str_eqb. destruct (list_eq_dec ascii_dec a b); intuition congruence. Qed.

Lemma count_of_windows (corpus : str) (n : nat) (s : str) (d : ascii) :
  1 <= length s <= n ->
  count_of (table (Ngram_init corpus n)) s d =
  length (filter (fun i => str_eqb (skipn (n - length s) (slice corpus i (i + n))) s
                           && (if ascii_dec (nth (i + n) corpus " "%char) d then true else false))
                 (seq 0 (length corpus - n))).
Proof.
  intros Hs. unfold Ngram_init. cbn [table].
  rewrite fold_windows_count, count_of_nil, Nat.add_0_l.
  apply pooled_windows; [exact Hs|apply window_in_range].
Qed.

(** The last [k] characters of the window at [i] are the corpus slice that
    ends at [i + n]. *)
Lemma window_suffix (corpus : str) (n i k : nat) :
  k <= n -> skipn (n - k) (slice corpus i (i + n)) = slice corpus (i + n - k) (i + n).
Proof.
  intros Hk. unfold slice. rewrite skipn_firstn_comm, skipn_skipn.
  replace (i + n - i - (n - k)) with k by lia.
  replace (i + n - (i + n - k)) with k by lia.
  replace (n - k + i) with (i + n - k) by lia. reflexivity.
Qed.

Lemma slice_tail (l : str) (a b : nat) (y : ascii) (r : str) :
  slice l a b = y :: r -> slice l (S a) b = r.
Proof.
  unfold slice. intros H.
  replace (S a) with (1 + a) by lia. rewrite <- skipn_skipn.
  destruct (b - a) as [|m] eqn:E; [discriminate|].
  replace (b - (1 + a)) with m by lia.
  destruct (skipn a l) as [|z X]; [destruct m; discriminate|].
  simpl in H. injection H as _ H. exact H.
Qed.

Lemma nth_slice (l : str) (a b j : nat) (d : ascii) :
  j < b - a -> nth j (slice l a b) d = nth (a + j) l d.
Proof.
  intros Hj. unfold slice. rewrite nth_firstn, nth_skipn.
  rewrite (proj2 (Nat.ltb_lt j (b - a))) by exact Hj. reflexivity.
Qed.

Lemma counter_get_pos (ctr : counter) (d : ascii) :
  Forall (fun kv => 0 < snd kv) ctr -> (0 < counter_get ctr d <-> In d (map fst ctr)).
Proof.
  induction ctr as [|[k v] r IH]; simpl; intros Hall; [split; [lia|intros []]|].
  inversion Hall as [|? ? Hv Hr]; subst. simpl in Hv.
  destruct (ascii_dec k d) as [->|Hkd]; [split; auto|].
  rewrite IH by exact Hr. split; [auto|intros [E|H]; [congruence|exact H]].
Qed.

Lemma count_of_pos (corpus : str) (n : nat) (s : str) (d : ascii) :
  0 < count_of (table (Ngram_init corpus n)) s d <->
  exists ctr, lookup s (table (Ngram_init corpus n)) = Some ctr /\ In d (map fst ctr).
Proof.
  unfold count_of. destruct (lookup s _) as [ctr|] eqn:Hl.
  - destruct (build_lookup_ok corpus n s ctr Hl) as (_ & _ & Hc & _).
    rewrite counter_get_pos.
    + split; [intros H; exists ctr; auto|intros (c & E & H); injection E as <-; exact H].
    + eapply Forall_impl; [|exact Hc]. intros kv [H _]. exact H.
  - split; [lia|intros (c & E & _); discriminate].
Qed.

Lemma count_of_out_of_range (corpus : str) (n : nat) (s : str) (d : ascii) :
  ~ (1 <= length s <= n) -> count_of (table (Ngram_init corpus n)) s d = 0.
Proof.
  intros Hs. unfold count_of. destruct (lookup s _) as [ctr|] eqn:Hl; [|reflexivity].
  destruct (build_lookup_ok corpus n s ctr Hl) as (Hlen & _). simpl in Hlen. contradiction.
Qed.

Lemma filter_length_pos {A : Type} (p : A -> bool) (l : list A) :
  0 < length (filter p l) <-> exists x, In x l /\ p x = true.
Proof.
  split.
  - intros H. destruct (filter p l) as [|x r] eqn:E; simpl in H; [lia|].
    exists x. apply filter_In. rewrite E. left; reflexivity.
  - intros (x & Hx & Hp). destruct (filter p l) eqn:E; simpl; [|lia].
    assert (Hin : In x (filter p l)) by (apply filter_In; auto). rewrite E in Hin. destruct Hin.
Qed.

(** Which pairs (context, next character) the table holds. *)
Lemma support_iff (corpus : str) (n : nat) (s : str) (d : ascii) :
  (exists ctr, lookup s (table (Ngram_init corpus n)) = Some ctr /\ In d (map fst ctr)) <->
  1 <= length s <= n /\
  exists p, n <= p < length corpus /\ slice corpus (p - length s) p = s /\
            nth p corpus " "%char = d.
Proof.
  rewrite <- count_of_pos.
  destruct (le_lt_dec 1 (length s)) as [H1|H1];
    [destruct (le_lt_dec (length s) n) as [H2|H2]|].
  2,3: rewrite count_of_out_of_range by lia; split; [lia|intros [H _]; lia].
  rewrite count_of_windows by lia. rewrite filter_length_pos. split.
  - intros (i & Hi & Hp). apply in_seq in Hi. apply andb_prop in Hp as [Hs Hd].
    apply str_eqb_spec in Hs. rewrite window_suffix in Hs by lia.
    split; [lia|]. exists (i + n). split; [lia|split; [exact Hs|]].
    destruct (ascii_dec _ d); [assumption|discriminate].
  - intros (_ & p & Hp & Hs & Hd). exists (p - n). split; [apply in_seq; lia|].
    apply andb_true_intro. split.
    + apply str_eqb_spec. rewrite window_suffix by lia.
      replace (p - n + n - length s) with (p - length s) by lia.
      replace (p - n + n) with p by lia. exact Hs.
    + replace (p - n + n) with p by lia.
      destruct (ascii_dec _ d); [reflexivity|contradiction].
Qed.

Lemma keys_iff (corpus : str) (n : nat) (s : str) :
  In s (map fst (table (Ngram_init corpus n))) <->
  1 <= length s <= n /\
  exists p, n <= p < length corpus /\ slice corpus (p - length s) p = s.
Proof.
  split.
  - intros Hin. destruct (In_lookup s _ Hin) as [ctr Hl].
    destruct (build_lookup_ok corpus n s ctr Hl) as (_ & Hne & _).
    destruct ctr as [|[d v] r]; [simpl in Hne; congruence|].
    destruct (proj1 (support_iff corpus n s d)) as (Hs & p & Hp & Hsl & _).
    + exists ((d, v) :: r). split; [exact Hl|left; reflexivity].
    + split; [exact Hs|exists p; auto].
  - intros (Hs & p & Hp & Hsl).
    destruct (proj2 (support_iff corpus n s (nth p corpus " "%char))) as (ctr & Hl & _).
    + split; [exact Hs|exists p; auto].
    + apply (in_map fst _ (s, ctr)), lookup_In, Hl.
Qed.

(** ** Counting the recorded observations *)

Lemma total_counter_incr (c : ascii) (ctr : counter) : total (counter_incr c ctr) = S (total ctr).
Proof.
  unfold total. induction ctr as [|[k v] r IH]; simpl; [reflexivity|].
  destruct (ascii_dec k c); simpl; [lia|]. rewrite IH. lia.
Qed.

Lemma weight_table_incr (k : nat) (pre : str) (c : ascii) (t : Table) :
  weight_of_length k (table_incr pre c t) =
  weight_of_length k t + (if length pre =? k then 1 else 0).
Proof.
  unfold weight_of_length. induction t as [|[k0 ctr] r IH]; simpl.
  - destruct (length pre =? k); reflexivity.
  - destruct (list_eq_dec ascii_dec k0 pre) as [->|]; simpl.
    + rewrite total_counter_incr. destruct (length pre =? k); lia.
    + rewrite IH. lia.
Qed.

Lemma table_weight_table_incr (pre : str) (c : ascii) (t : Table) :
  table_weight (table_incr pre c t) = S (table_weight t).
Proof.
  unfold table_weight. induction t as [|[k0 ctr] r IH]; simpl; [reflexivity|].
  destruct (list_eq_dec ascii_dec k0 pre) as [->|]; simpl.
  - rewrite total_counter_incr. lia.
  - rewrite IH. lia.
Qed.

Lemma weight_record_suffixes (k : nat) (pre : str) (c : ascii) (t : Table) :
  weight_of_length k (record_suffixes pre c t) =
  weight_of_length k t + (if (1 <=? k) && (k <=? length pre) then 1 else 0).
Proof.
  revert t. induction pre as [|x r IH]; intros t; cbn [record_suffixes length].
  - destruct (Nat.leb_spec 1 k), (Nat.leb_spec k 0); simpl; lia.
  - rewrite IH, weight_table_incr. cbn [length].
    destruct (Nat.eqb_spec (S (length r)) k); destruct (Nat.leb_spec 1 k);
      destruct (Nat.leb_spec k (length r)); destruct (Nat.leb_spec k (S (length r)));
      simpl; lia.
Qed.

Lemma table_weight_record_suffixes (pre : str) (c : ascii) (t : Table) :
  table_weight (record_suffixes pre c t) = table_weight t + length pre.
Proof.
  revert t. induction pre as [|x r IH]; intros t; cbn [record_suffixes length]; [lia|].
  rewrite IH, table_weight_table_incr. lia.
Qed.

Lemma window_length (corpus : str) (n i : nat) :
  i + n < length corpus -> length (slice corpus i (i + n)) = n.
Proof. intros H. unfold slice. rewrite length_firstn, length_skipn. lia. Qed.

Lemma weight_fold_windows (k : nat) (corpus : str) (n : nat) (l : list nat) (t : Table) :
  (forall i, In i l -> i + n < length corpus) ->
  weight_of_length k (fold_left (record_window corpus n) l t) =
  weight_of_length k t + (if (1 <=? k) && (k <=? n) then length l else 0).
Proof.
  revert t. induction l as [|i l IH]; intros t Hl; cbn [fold_left length].
  - destruct ((1 <=? k) && (k <=? n)); lia.
  - rewrite IH by (intros j Hj; apply Hl; simpl; auto).
    unfold record_window. rewrite weight_record_suffixes.
    rewrite window_length by (apply Hl; left; reflexivity).
    destruct ((1 <=? k) && (k <=? n)); lia.
Qed.

Lemma table_weight_fold_windows (corpus : str) (n : nat) (l : list nat) (t : Table) :
  (forall i, In i l -> i + n < length corpus) ->
  table_weight (fold_left (record_window corpus n) l t) = table_weight t + n * length l.
Proof.
  revert t. induction l as [|i l IH]; intros t Hl; cbn [fold_left length]; [lia|].
  rewrite IH by (intros j Hj; apply Hl; simpl; auto).
  unfold record_window. rewrite table_weight_record_suffixes.
  rewrite window_length by (apply Hl; left; reflexivity). lia.
Qed.

Lemma filter_length_mono {A : Type} (p q : A -> bool) (l : list A) :
  (forall x, p x = true -> q x = true) -> length (filter p l) <= length (filter q l).
Proof.
  intros H. induction l as [|a l IH]; simpl; [lia|].
  destruct (p a) eqn:E; [rewrite (H a E)|destruct (q a)]; simpl; lia.
Qed.

(** ** Characters and the corpus of [main] *)

Lemma lower_code (y : ascii) :
  nat_of_ascii (lower y) =
  if (65 <=? nat_of_ascii y) && (nat_of_ascii y <=? 90) then nat_of_ascii y + 32
  else nat_of_ascii y.
Proof.
  unfold lower. cbv zeta.
  destruct ((65 <=? nat_of_ascii y) && (nat_of_ascii y <=? 90)) eqn:E; [|reflexivity].
  apply andb_prop in E as [_ E]. apply Nat.leb_le in E. apply nat_ascii_embedding. lia.
Qed.

Lemma upper_code (y : ascii) :
  nat_of_ascii (upper y) =
  if (97 <=? nat_of_ascii y) && (nat_of_ascii y <=? 122) then nat_of_ascii y - 32
  else nat_of_ascii y.
Proof.
  unfold upper. cbv zeta.
  destruct ((97 <=? nat_of_ascii y) && (nat_of_ascii y <=? 122)) eqn:E; [|reflexivity].
  apply nat_ascii_embedding. pose proof (nat_ascii_bounded y). lia.
Qed.

Lemma underscore_code (y : ascii) : y = "_"%char <-> nat_of_ascii y = 95.
Proof.
  split; [intros ->; reflexivity|].
  intros H. rewrite <- (ascii_nat_embedding y), H. reflexivity.
Qed.

Lemma lower_class (y : ascii) :
  65 <= nat_of_ascii y <= 90 \/ 97 <= nat_of_ascii y <= 122 \/ y = "_"%char ->
  lowercase_or_underscore (lower y).
Proof.
  unfold lowercase_or_underscore. rewrite !underscore_code, lower_code.
  destruct (Nat.leb_spec 65 (nat_of_ascii y)), (Nat.leb_spec (nat_of_ascii y) 90);
    simpl; lia.
Qed.

Lemma lower_fix (x : ascii) : lowercase_or_underscore x -> lower x = x.
Proof.
  unfold lowercase_or_underscore. intros H. rewrite underscore_code in H.
  unfold lower. cbv zeta.
  destruct (Nat.leb_spec 65 (nat_of_ascii x)), (Nat.leb_spec (nat_of_ascii x) 90);
    simpl; [lia|reflexivity..].
Qed.

Lemma upper_class (x : ascii) : lowercase_or_underscore x -> uppercase_or_underscore (upper x).
Proof.
  unfold lowercase_or_underscore, uppercase_or_underscore. rewrite !underscore_code, upper_code.
  destruct (Nat.leb_spec 97 (nat_of_ascii x)), (Nat.leb_spec (nat_of_ascii x) 122);
    simpl; lia.
Qed.

(** The characters that the substitution of [main] keeps. *)
Lemma keep_char (y : ascii) :
  negb (negb (is_word_char y) || is_digit_char y) = true <->
  65 <= nat_of_ascii y <= 90 \/ 97 <= nat_of_ascii y <= 122 \/ y = "_"%char.
Proof.
  rewrite underscore_code. unfold is_word_char, is_digit_char. cbv zeta.
  destruct (Nat.leb_spec 48 (nat_of_ascii y)), (Nat.leb_spec (nat_of_ascii y) 57),
    (Nat.leb_spec 65 (nat_of_ascii y)), (Nat.leb_spec (nat_of_ascii y) 90),
    (Nat.leb_spec 97 (nat_of_ascii y)), (Nat.leb_spec (nat_of_ascii y) 122),
    (Nat.eqb_spec (nat_of_ascii y) 95);
    simpl; split; intros; first [reflexivity | discriminate | (exfalso; lia) | lia].
Qed.

Lemma main_corpus_in (corpus_text : str) (c : ascii) :
  In c (main_corpus corpus_text) <->
  exists y, In y corpus_text /\
    (65 <= nat_of_ascii y <= 90 \/ 97 <= nat_of_ascii y <= 122 \/ y = "_"%char) /\ lower y = c.
Proof.
  unfold main_corpus, str_lower, re_sub_nonword_digit. rewrite in_map_iff. split.
  - intros (y & <- & Hy). apply filter_In in Hy as [Hy Hk]. apply keep_char in Hk.
    exists y. auto.
  - intros (y & Hy & Hk & <-). exists y. split; [reflexivity|].
    apply filter_In. split; [exact Hy|]. apply keep_char, Hk.
Qed.

Lemma main_corpus_class (corpus_text : str) :
  Forall lowercase_or_underscore (main_corpus corpus_text).
Proof.
  apply Forall_forall. intros c Hc. apply main_corpus_in in Hc as (y & _ & Hk & <-).
  apply lower_class, Hk.
Qed.

Lemma main_corpus_fix (l : str) : Forall lowercase_or_underscore l -> main_corpus l = l.
Proof.
  unfold main_corpus, str_lower, re_sub_nonword_digit.
  induction l as [|a l IH]; intros H; [reflexivity|].
  inversion H as [|? ? Ha Hl]; subst.
  assert (Hk : negb (negb (is_word_char a) || is_digit_char a) = true).
  { apply keep_char. unfold lowercase_or_underscore in Ha. tauto. }
  cbn [filter]. rewrite Hk. cbn [map]. rewrite lower_fix, IH by assumption. reflexivity.
Qed.

Lemma main_corpus_app (a b : str) : main_corpus (a ++ b) = main_corpus a ++ main_corpus b.
Proof. unfold main_corpus, str_lower, re_sub_nonword_digit. rewrite filter_app, map_app. reflexivity. Qed.

Lemma nth_digit_in (r : nat) : In (nth (r mod 10) digits "0"%char) digits.
Proof. apply nth_In. change (length digits) with 10. apply Nat.mod_upper_bound. lia. Qed.

Lemma nth_punct_in (r : nat) : In (nth (r mod 12) punctuation "!"%char) punctuation.
Proof. apply nth_In. change (length punctuation) with 12. apply Nat.mod_upper_bound. lia. Qed.

Lemma letters_before_le (template : str) (i : nat) : letters_before template i <= i.
Proof.
  unfold letters_before. pose proof (filter_length_le takes_letter (firstn i template)).
  rewrite length_firstn in H. lia.
Qed.

Lemma letters_before_skip (c : ascii) (rest : str) (j : nat) :
  takes_letter c = false -> letters_before (c :: rest) (S j) = letters_before rest j.
Proof. intros H. unfold letters_before. cbn [firstn filter]. rewrite H. reflexivity. Qed.

Lemma last_n_app (n : nat) (p pre : str) :
  1 <= n -> n <= length pre -> last_n n (p ++ pre) = last_n n pre.
Proof.
  intros H1 H2. destruct n as [|m]; [lia|]. unfold last_n.
  rewrite length_app, skipn_app.
  replace (length p + length pre - S m - length p) with (length pre - S m) by lia.
  rewrite skipn_all2 by lia. reflexivity.
Qed.

Lemma last_n_snoc (n : nat) (q : str) (x : ascii) :
  1 <= n -> last_n n (q ++ [x]) = skipn (length q + 1 - n) q ++ [x].
Proof.
  intros Hn. destruct n as [|m]; [lia|]. unfold last_n.
  rewrite length_app, skipn_app. cbn [length].
  replace (length q + 1 - S m - length q) with 0 by lia. reflexivity.
Qed.

Lemma firstn_nth_snoc (l : str) (j : nat) (d : ascii) :
  j < length l -> firstn (S j) l = firstn j l ++ [nth j l d].
Proof.
  revert j. induction l as [|a l IH]; intros [|j] H; simpl in *; try lia; [reflexivity|].
  rewrite IH by lia. reflexivity.
Qed.

(** X1: [table[s]] exists exactly for the strings [s] of 1 to [n]
    characters that occur in the corpus ending just before a position
    [p >= n] (so that [s] is followed by the character at [p]); and [d] is
    a key of [table[s]] exactly when, for such a [p], the character at [p]
    is [d]. *)
Theorem Ngram_init_support (corpus : str) (n : nat) (s : str) (d : ascii) :
  (In s (map fst (table (Ngram_init corpus n))) <->
   1 <= length s <= n /\
   exists p, n <= p < length corpus /\ slice corpus (p - length s) p = s)
  /\
  ((exists ctr, lookup s (table (Ngram_init corpus n)) = Some ctr /\ In d (map fst ctr)) <->
   1 <= length s <= n /\
   exists p, n <= p < length corpus /\ slice corpus (p - length s) p = s /\
             nth p corpus " "%char = d).
Proof. split; [apply keys_iff|apply support_iff]. Qed.

(** X2: every window adds exactly one observation for each key length
    from 1 to [n]: the counts stored under the keys of length [k] sum to
    [len(corpus) - n] for [1 <= k <= n] (and to 0 otherwise), and all the
    counts of the table sum to [n * (len(corpus) - n)]. *)
Theorem Ngram_init_weights (corpus : str) (n k : nat) :
  weight_of_length k (table (Ngram_init corpus n)) =
    (if (1 <=? k) && (k <=? n) then length corpus - n else 0)
  /\ table_weight (table (Ngram_init corpus n)) = n * (length corpus - n).
Proof.
  unfold Ngram_init. cbn [table]. split.
  - rewrite weight_fold_windows by apply window_in_range. rewrite length_seq. reflexivity.
  - rewrite table_weight_fold_windows by apply window_in_range. rewrite length_seq. reflexivity.
Qed.

(** X3: the counts pool observations towards shorter contexts: dropping
    the first character of a context [x :: s] (with [s] non-empty) never
    lowers the count of a next character. *)
Theorem Ngram_init_pooling (corpus : str) (n : nat) (x : ascii) (s : str) (d : ascii) :
  s <> [] ->
  count_of (table (Ngram_init corpus n)) (x :: s) d <= count_of (table (Ngram_init corpus n)) s d.
Proof.
  intros Hs. destruct (le_lt_dec (length (x :: s)) n) as [Hle|Hgt].
  2: { rewrite (count_of_out_of_range corpus n (x :: s)) by lia. lia. }
  assert (H1 : 1 <= length s) by (destruct s; [congruence|simpl; lia]).
  cbn [length] in Hle.
  rewrite (count_of_windows corpus n (x :: s)) by (cbn [length]; lia).
  rewrite (count_of_windows corpus n s) by lia.
  apply filter_length_mono. intros i Hp.
  apply andb_prop in Hp as [Hw Hd]. rewrite Hd, andb_true_r.
  apply str_eqb_spec in Hw. apply str_eqb_spec.
  rewrite window_suffix in Hw by (cbn [length]; lia). rewrite window_suffix by lia.
  cbn [length] in Hw.
  replace (i + n - length s) with (S (i + n - S (length s))) by lia.
  exact (slice_tail _ _ _ _ _ Hw).
Qed.

(** X4: the corpus of [main] keeps exactly the letters and underscores of
    the text (digits and every other character are removed), lowercased:
    it consists of [a]-[z] and [_] only, cleaning it again changes
    nothing, and cleaning a concatenation cleans each part. *)
Theorem main_corpus_clean (corpus_text a b : str) :
  (forall c, In c (main_corpus corpus_text) <->
     exists y, In y corpus_text /\
       (65 <= nat_of_ascii y <= 90 \/ 97 <= nat_of_ascii y <= 122 \/ y = "_"%char) /\
       lower y = c)
  /\ Forall lowercase_or_underscore (main_corpus corpus_text)
  /\ main_corpus (main_corpus corpus_text) = main_corpus corpus_text
  /\ main_corpus (a ++ b) = main_corpus a ++ main_corpus b.
Proof.
  split; [apply main_corpus_in|split; [apply main_corpus_class|split]].
  - apply main_corpus_fix, main_corpus_class.
  - apply main_corpus_app.
Qed.

Section Extras.

Context {St : Type}.
Variable raw : St -> nat * St.

Lemma lookup_loop_cons (t : Table) (y : ascii) (r : str) :
  lookup_loop raw t (y :: r) =
  match lookup (y :: r) t with Some ctr => draw_counter raw ctr | None => lookup_loop raw t r end.
Proof. reflexivity. Qed.

(** When the last character of the context is a key, the loop stops at
    a hit on a suffix that ends with it. *)
Lemma lookup_loop_last_hit (t : Table) (q : str) (x c : ascii) (st st' : St) :
  lookup [x] t <> None ->
  lookup_loop raw t (q ++ [x]) st = inr (c, st') ->
  exists q1 s0 ctr, q = q1 ++ s0 /\ lookup (s0 ++ [x]) t = Some ctr /\
                    draw_counter raw ctr st = inr (c, st').
Proof.
  intros Hx. induction q as [|y q IH]; intros H.
  - change ([] ++ [x]) with [x] in H. rewrite lookup_loop_cons in H. destruct (lookup [x] t) as [ctr|] eqn:E; [|congruence].
    exists [], [], ctr. auto.
  - change ((y :: q) ++ [x]) with (y :: (q ++ [x])) in H.
    rewrite lookup_loop_cons in H. destruct (lookup (y :: q ++ [x]) t) as [ctr|] eqn:E.
    + exists [], (y :: q), ctr. split; [reflexivity|split; [exact E|exact H]].
    + destruct (IH H) as (q1 & s0 & ctr & -> & Hl & Hd). exists (y :: q1), s0, ctr. auto.
Qed.

Lemma draw_counter_key (corpus : str) (n : nat) (s : str) (ctr : counter) (c : ascii) (st st' : St) :
  lookup s (table (Ngram_init corpus n)) = Some ctr ->
  draw_counter raw ctr st = inr (c, st') -> In c (map fst ctr).
Proof.
  intros Hl Hd. destruct (build_lookup_ok corpus n s ctr Hl) as (_ & Hne & Hc & _).
  assert (Hp : Forall (fun kv => 0 < snd kv) ctr)
    by (eapply Forall_impl; [|exact Hc]; intros kv [H _]; exact H).
  destruct (draw_counter_ok raw ctr st Hne Hp) as (c' & st'' & E & Hin).
  rewrite Hd in E. injection E as -> _. exact Hin.
Qed.

Lemma sample_bigram (corpus : str) (n : nat) (q : str) (x c : ascii) (st st' : St) :
  lookup [x] (table (Ngram_init corpus n)) <> None ->
  sample raw (Ngram_init corpus n) (q ++ [x]) st = inr (c, st') ->
  exists p, n <= p < length corpus /\ 1 <= p /\
    nth (p - 1) corpus " "%char = x /\ nth p corpus " "%char = c.
Proof.
  intros Hx Hs.
  assert (Hn : 1 <= n).
  { destruct n; [|lia]. exfalso. apply Hx.
    rewrite (proj2 (build_empty_iff corpus 0) (or_intror eq_refl)). reflexivity. }
  rewrite sample_unfold, last_n_snoc in Hs by exact Hn.
  destruct (lookup_loop_last_hit _ _ _ _ _ _ Hx Hs) as (q1 & s0 & ctr & _ & Hl & Hd).
  destruct (proj1 (support_iff corpus n (s0 ++ [x]) c)) as (Hlen & p & Hp & Hsl & Hc).
  { exists ctr. split; [exact Hl|exact (draw_counter_key _ _ _ _ _ _ _ Hl Hd)]. }
  rewrite length_app in Hlen, Hsl. cbn [length] in Hlen, Hsl.
  exists p. split; [exact Hp|split; [lia|split; [|exact Hc]]].
  assert (E := f_equal (fun w => nth (length s0) w " "%char) Hsl). cbv beta in E.
  rewrite nth_slice in E by lia. rewrite app_nth2, Nat.sub_diag in E by lia.
  cbn [nth] in E.
  replace (p - 1) with (p - (length s0 + 1) + length s0) by lia. exact E.
Qed.

Lemma built_generate_ok (corpus : str) (n : nat) (template : str) (st : St) :
  n < length corpus -> 1 <= n ->
  exists pwd st', generate_password raw (Ngram_init corpus n) template st = inr (pwd, st')
                  /\ length pwd = length template.
Proof.
  intros Hlen Hn.
  destruct (built_phrase_ok raw corpus n (length template) st Hlen Hn) as (p & st1 & Hp).
  destruct (phrase_loop_trace raw _ _ _ _ _ _ Hp) as (suf & -> & Hsuf & _).
  destruct (template_loop_ok raw template (rev ([] ++ suf)) [] st1) as (out & st' & E & Ho).
  { rewrite length_rev. simpl. lia. }
  exists out, st'. split; [|simpl in Ho; exact Ho].
  unfold generate_password, bind. rewrite Hp. exact E.
Qed.

Lemma phrase_loop_add (ng : Ngram) (k m : nat) (s0 : str) (st : St) :
  phrase_loop raw ng (k + m) s0 st = (s <- phrase_loop raw ng k s0 ;; phrase_loop raw ng m s) st.
Proof.
  revert s0 st. induction k as [|k IH]; intros s0 st; [reflexivity|].
  change (S k + m) with (S (k + m)). cbn [phrase_loop]. unfold bind at 1 2 3.
  destruct (sample raw ng s0 st) as [e|[c st1]]; [reflexivity|].
  rewrite IH. reflexivity.
Qed.

Lemma phrase_in_corpus (corpus : str) (n len : nat) (st : St) (s : str) (st' : St) :
  phrase raw (Ngram_init corpus n) len st = inr (s, st') -> Forall (fun c => In c corpus) s.
Proof.
  intros Hp. destruct (phrase_loop_trace raw _ _ _ _ _ _ Hp) as (suf & Hs & Hsuf & Hi).
  simpl in Hs. subst s. apply Forall_forall. intros c Hc.
  destruct (In_nth suf c " "%char Hc) as (i & Hi' & <-).
  destruct (Hi i) as (st1 & st2 & E); [lia|].
  exact (sample_in_corpus raw corpus n _ _ _ _ E).
Qed.

Ltac pos_ok :=
  unfold position_ok; cbn [nth];
  repeat split; intros Hc;
  first [ reflexivity | discriminate Hc | (left; reflexivity) | (right; reflexivity)
        | congruence | apply nth_digit_in | apply nth_punct_in
        | (exfalso; apply Hc; simpl; repeat (first [left; reflexivity | right])) ].

Lemma positions_step (c : ascii) (rest ph ph' pwd : list ascii) (o : ascii) (out : str) :
  position_ok c (nth 0 ph " "%char) o ->
  (forall j, nth (letters_before (c :: rest) (S j)) ph " "%char =
             nth (letters_before rest j) ph' " "%char) ->
  (exists sfx, out = (pwd ++ [o]) ++ sfx /\ length sfx = length rest /\
     forall i, i < length rest ->
       position_ok (nth i rest " "%char) (nth (letters_before rest i) ph' " "%char)
                   (nth i sfx " "%char)) ->
  exists sfx, out = pwd ++ sfx /\ length sfx = length (c :: rest) /\
     forall i, i < length (c :: rest) ->
       position_ok (nth i (c :: rest) " "%char) (nth (letters_before (c :: rest) i) ph " "%char)
                   (nth i sfx " "%char).
Proof.
  intros H0 Hsh (sfx & -> & Hl & Hi). exists (o :: sfx). rewrite <- app_assoc.
  split; [reflexivity|split; [simpl; lia|]].
  intros [|j] Hj; [exact H0|].
  change (nth (S j) (c :: rest) " "%char) with (nth j rest " "%char).
  change (nth (S j) (o :: sfx) " "%char) with (nth j sfx " "%char).
  rewrite Hsh. apply Hi. simpl in Hj. lia.
Qed.

(** The directive loop of the spec's reading, which the code's loop
    refines, output position by position. *)
Lemma apply_spec_positions (template : str) (ph pwd : list ascii) (st : St) (out : str) (st' : St) :
  apply_spec raw template ph pwd st = inr (out, st') ->
  exists sfx, out = pwd ++ sfx /\ length sfx = length template /\
    forall i, i < length template ->
      position_ok (nth i template " "%char) (nth (letters_before template i) ph " "%char)
                  (nth i sfx " "%char).
Proof.
  revert ph pwd st. induction template as [|c rest IH]; intros ph pwd st H.
  - cbn [apply_spec] in H. unfold ret in H. injection H as <- _. exists []. rewrite app_nil_r.
    split; [reflexivity|split; [reflexivity|intros i Hi; simpl in Hi; lia]].
  - revert H. cbn [apply_spec].
    destruct (ascii_dec c "u") as [->|Hu]; [|destruct (ascii_dec c "l") as [->|Hl];
      [|destruct (ascii_dec c "m") as [->|Hm]; [|destruct (ascii_dec c "d") as [->|Hd];
      [|destruct (ascii_dec c "p") as [->|Hp]]]]]; intros H.
    + destruct ph as [|x ph']; [discriminate H|].
      apply (positions_step "u" rest (x :: ph') ph' pwd (upper x) out);
        [pos_ok | intros j; reflexivity | exact (IH ph' (pwd ++ [upper x]) st H)].
    + destruct ph as [|x ph']; [discriminate H|].
      apply (positions_step "l" rest (x :: ph') ph' pwd x out);
        [pos_ok | intros j; reflexivity | exact (IH ph' (pwd ++ [x]) st H)].
    + destruct ph as [|x ph']; [discriminate H|].
      unfold bind, randbelow in H. cbv beta iota in H. destruct (raw st) as [r st1].
      destruct (r mod 2 =? 0).
      * apply (positions_step "m" rest (x :: ph') ph' pwd (lower x) out);
          [pos_ok | intros j; reflexivity | exact (IH ph' (pwd ++ [lower x]) st1 H)].
      * apply (positions_step "m" rest (x :: ph') ph' pwd (upper x) out);
          [pos_ok | intros j; reflexivity | exact (IH ph' (pwd ++ [upper x]) st1 H)].
    + unfold bind, randbelow in H. cbv beta iota in H. destruct (raw st) as [r st1].
      apply (positions_step "d" rest ph ph pwd (nth (r mod 10) digits "0"%char) out);
        [pos_ok | intros j; reflexivity
        | exact (IH ph (pwd ++ [nth (r mod 10) digits "0"%char]) st1 H)].
    + unfold bind, randbelow in H. cbv beta iota in H. destruct (raw st) as [r st1].
      apply (positions_step "p" rest ph ph pwd (nth (r mod 12) punctuation "!"%char) out);
        [pos_ok | intros j; reflexivity
        | exact (IH ph (pwd ++ [nth (r mod 12) punctuation "!"%char]) st1 H)].
    + assert (Ht : takes_letter c = false).
      { unfold takes_letter. destruct (ascii_dec c "u"); [congruence|].
        destruct (ascii_dec c "l"); [congruence|]. destruct (ascii_dec c "m"); [congruence|].
        reflexivity. }
      apply (positions_step c rest ph ph pwd c out);
        [pos_ok | intros j; rewrite letters_before_skip by exact Ht; reflexivity
        | exact (IH ph (pwd ++ [c]) st H)].
Qed.

Lemma generate_positions (ng : Ngram) (template : str) (st : St) (pwd : str) (st' : St) :
  generate_password raw ng template st = inr (pwd, st') ->
  exists ph st1, phrase raw ng (length template) st = inr (ph, st1) /\
    length ph = length template /\ length pwd = length template /\
    forall i, i < length template ->
      position_ok (nth i template " "%char) (nth (letters_before template i) ph " "%char)
                  (nth i pwd " "%char).
Proof.
  intros H. unfold generate_password, bind in H. cbv zeta in H.
  destruct (phrase raw ng (length template) st) as [e|[ph st1]] eqn:Hph; [discriminate H|].
  rewrite template_loop_refines in H.
  destruct (apply_spec_positions _ _ _ _ _ _ H) as (sfx & Hs & Hl & Hi).
  simpl in Hs. subst pwd.
  destruct (phrase_loop_trace raw _ _ _ _ _ _ Hph) as (suf & Hsuf & Hlen & _).
  exists ph, st1. split; [reflexivity|split; [|split; [exact Hl|exact Hi]]].
  rewrite Hsuf. exact Hlen.
Qed.

Lemma main_password_chars (corpus_text template : str) (st : St) (pwd : str) (st' : St) :
  generate_password raw (main_ngram corpus_text) template st = inr (pwd, st') ->
  length pwd = length template /\
  forall i, i < length template ->
    let c := nth i template " "%char in
    let o := nth i pwd " "%char in
    (c = "l"%char -> lowercase_or_underscore o) /\
    (c = "u"%char -> uppercase_or_underscore o) /\
    (c = "m"%char -> lowercase_or_underscore o \/ uppercase_or_underscore o) /\
    (c = "d"%char -> In o digits) /\
    (c = "p"%char -> In o punctuation) /\
    (~ In c ["u"; "l"; "m"; "d"; "p"]%char -> o = c).
Proof.
  intros H. destruct (generate_positions _ _ _ _ _ H) as (ph & st1 & Hph & Hphl & Hl & Hpos).
  split; [exact Hl|]. intros i Hi. cbv zeta.
  assert (Hx : lowercase_or_underscore (nth (letters_before template i) ph " "%char)).
  { apply (proj1 (Forall_forall _ _) (main_corpus_class corpus_text)).
    apply (proj1 (Forall_forall _ _) (phrase_in_corpus _ _ _ _ _ _ Hph)).
    apply nth_In. pose proof (letters_before_le template i). lia. }
  destruct (Hpos i Hi) as (Hu & Hl' & Hm & Hd & Hp & Ho).
  split; [|split; [|split; [|split; [|split]]]]; intros Hc.
  - rewrite (Hl' Hc). exact Hx.
  - rewrite (Hu Hc). apply upper_class, Hx.
  - destruct (Hm Hc) as [E|E]; rewrite E.
    + left. rewrite lower_fix by exact Hx. exact Hx.
    + right. apply upper_class, Hx.
  - exact (Hd Hc).
  - exact (Hp Hc).
  - exact (Ho Hc).
Qed.


(** X5: [Sample] reads only the last [n] characters of its context: with
    [n >= 1], putting any text in front of a context of at least [n]
    characters does not change the draw. *)
Theorem sample_last_n (ng : Ngram) (p pre : str) (st : St) :
  1 <= order ng <= length pre -> sample raw ng (p ++ pre) st = sample raw ng pre st.
Proof. intros H. unfold sample. rewrite last_n_app by lia. reflexivity. Qed.

(** X6: on a built model, [Sample] returns a character that occurs in the
    corpus at a position [p >= n]: a character found only among the first
    [n] ones never comes out. *)
Theorem sample_result_position (corpus : str) (n : nat) (pre : str) (c : ascii) (st st' : St) :
  sample raw (Ngram_init corpus n) pre st = inr (c, st') ->
  exists p, n <= p < length corpus /\ nth p corpus " "%char = c.
Proof.
  rewrite sample_unfold.
  destruct (lookup_loop_steps raw (table (Ngram_init corpus n)) (last_n n pre))
    as (j & _ & [(ctr & _ & Hk & E)|(_ & E)]); rewrite E; intros Hd.
  - destruct (proj1 (support_iff corpus n (skipn j (last_n n pre)) c)) as (_ & p & Hp & _ & Hc).
    + exists ctr. split; [exact Hk|exact (draw_counter_key _ _ _ _ _ _ _ Hk Hd)].
    + exists p. auto.
  - unfold fallback, bind in Hd. destruct (choice raw _ st) as [e|[k st1]]; [discriminate|].
    destruct (lookup k _) as [ctr|] eqn:Hl; [|discriminate].
    destruct (proj1 (support_iff corpus n k c)) as (_ & p & Hp & _ & Hc).
    + exists ctr. split; [exact Hl|exact (draw_counter_key _ _ _ _ _ _ _ Hl Hd)].
    + exists p. auto.
Qed.

(** X7: on a built model the only error that [Sample], [phrase] and
    [generate_password] can raise is [IndexError] (never [KeyError] or
    [ValueError]), and they raise it exactly when the table is empty
    ([len(corpus) <= n] or [n = 0]) and, for [phrase] and
    [generate_password], the requested length or the template is not
    empty. *)
Theorem built_model_errors (corpus : str) (n : nat) :
  (forall pre st e, sample raw (Ngram_init corpus n) pre st = inl e <->
                    e = IndexError /\ (length corpus <= n \/ n = 0)) /\
  (forall len st e, phrase raw (Ngram_init corpus n) len st = inl e <->
                    e = IndexError /\ 1 <= len /\ (length corpus <= n \/ n = 0)) /\
  (forall template st e, generate_password raw (Ngram_init corpus n) template st = inl e <->
                    e = IndexError /\ template <> [] /\ (length corpus <= n \/ n = 0)).
Proof.
  assert (Hdec : (length corpus <= n \/ n = 0) \/ (n < length corpus /\ 1 <= n)) by lia.
  destruct Hdec as [Hbad|[Hlen Hn]].
  - assert (Ht : table (Ngram_init corpus n) = []) by (apply build_empty_iff; exact Hbad).
    assert (Hs : forall pre st, sample raw (Ngram_init corpus n) pre st = inl IndexError)
      by (intros pre st; rewrite sample_unfold, Ht; apply lookup_loop_empty).
    split; [|split].
    + intros pre st e. rewrite Hs.
      split; [intros E; injection E as <-; auto|intros [-> _]; reflexivity].
    + intros [|len] st e.
      * split; [intros E; discriminate E|lia].
      * unfold phrase. rewrite phrase_loop_empty_table by (exact Ht || lia).
        split; [intros E; injection E as <-; split; [reflexivity|split; [lia|exact Hbad]]|].
        intros [-> _]. reflexivity.
    + intros [|c rest] st e.
      * split; [intros E; discriminate E|intros (_ & H & _); congruence].
      * assert (Hg : generate_password raw (Ngram_init corpus n) (c :: rest) st = inl IndexError).
        { unfold generate_password, bind, phrase.
          rewrite phrase_loop_empty_table by (exact Ht || (simpl; lia)). reflexivity. }
        rewrite Hg. split.
        -- intros E. injection E as <-. split; [reflexivity|split; [discriminate|exact Hbad]].
        -- intros [-> _]. reflexivity.
  - assert (Hne : table (Ngram_init corpus n) <> []).
    { intros H. apply build_empty_iff in H. lia. }
    split; [|split].
    + intros pre st e. rewrite sample_unfold.
      destruct (lookup_loop_ok raw _ (last_n n pre) st Hne (build_counters_ok corpus n))
        as (c & st' & E). rewrite E. split; [discriminate|lia].
    + intros len st e.
      destruct (built_phrase_ok raw corpus n len st Hlen Hn) as (s & st' & E).
      rewrite E. split; [discriminate|lia].
    + intros template st e.
      destruct (built_generate_ok corpus n template st Hlen Hn) as (pwd & st' & E & _).
      rewrite E. split; [discriminate|lia].
Qed.

(** X8: a phrase grows by appending: generating [k + m] characters is
    generating [k] of them and then [m] more from that prefix, and the
    first [k] characters of [phrase(k + m)] are [phrase(k)] drawn from the
    same state of the random source. *)
Theorem phrase_extends (ng : Ngram) (k m : nat) (st : St) :
  phrase raw ng (k + m) st = (s <- phrase raw ng k ;; phrase_loop raw ng m s) st /\
  (forall s st', phrase raw ng (k + m) st = inr (s, st') ->
     exists st1, phrase raw ng k st = inr (firstn k s, st1)).
Proof.
  split; [apply phrase_loop_add|].
  intros s st' H. unfold phrase in H. rewrite phrase_loop_add in H. unfold bind in H.
  destruct (phrase_loop raw ng k [] st) as [e|[s1 st1]] eqn:E; [discriminate H|].
  exists st1. unfold phrase. rewrite E.
  destruct (phrase_loop_trace raw _ _ _ _ _ _ E) as (suf1 & -> & Hl1 & _).
  destruct (phrase_loop_trace raw _ _ _ _ _ _ H) as (suf2 & -> & _ & _).
  cbn [app]. rewrite firstn_app, <- Hl1, Nat.sub_diag, firstn_all. cbn [firstn].
  rewrite app_nil_r. reflexivity.
Qed.

(** X9: in a phrase of a built model, whenever the character before
    position [i] is itself a key of the table, the two characters at
    [i - 1] and [i] stand next to each other somewhere in the corpus (the
    second one at a position [p >= n]). *)
Theorem phrase_bigrams (corpus : str) (n len : nat) (st : St) (s : str) (st' : St) :
  phrase raw (Ngram_init corpus n) len st = inr (s, st') ->
  forall i, 1 <= i < len ->
  lookup [nth (i - 1) s " "%char] (table (Ngram_init corpus n)) <> None ->
  exists p, n <= p < length corpus /\ 1 <= p /\
    nth (p - 1) corpus " "%char = nth (i - 1) s " "%char /\
    nth p corpus " "%char = nth i s " "%char.
Proof.
  intros H i Hi Hx.
  destruct (phrase_loop_trace raw _ _ _ _ _ _ H) as (suf & Hs & Hlen & Htr).
  simpl in Hs. subst suf.
  destruct (Htr i) as (st1 & st2 & E); [lia|]. cbn [length Nat.add] in E.
  destruct i as [|j]; [lia|]. replace (S j - 1) with j in * by lia.
  rewrite (firstn_nth_snoc s j " "%char) in E by lia.
  exact (sample_bigram _ _ _ _ _ _ _ Hx E).
Qed.

(** X10: what [generate_password] writes at each position [i] of the
    template: with [x] the phrase letter number [k] (where [k] counts the
    [u], [l] and [m] before [i]), a [u] gives [x.upper()], an [l] gives
    [x], an [m] one of [x.lower()] and [x.upper()], a [d] a digit, a [p]
    one of the twelve punctuation marks, and any other character itself;
    the phrase has the template's length. *)
Theorem generate_password_positions (ng : Ngram) (template : str) (st : St) (pwd : str) (st' : St) :
  generate_password raw ng template st = inr (pwd, st') ->
  exists ph st1, phrase raw ng (length template) st = inr (ph, st1) /\
    length ph = length template /\ length pwd = length template /\
    forall i, i < length template ->
      position_ok (nth i template " "%char) (nth (letters_before template i) ph " "%char)
                  (nth i pwd " "%char).
Proof. apply generate_positions. Qed.

(** X11: on the model of [main] (a corpus of at least four characters
    after cleaning), [generate_password] succeeds for every template, with
    a result of the template's length, in which an [l] position holds a
    lowercase letter or [_], a [u] position an uppercase letter or [_], an
    [m] position one of these, a [d] position a digit, a [p] position a
    punctuation mark, and any other position the template's character. *)
Theorem main_passwords (corpus_text template : str) (st : St) :
  3 < length (main_corpus corpus_text) ->
  exists pwd st', generate_password raw (main_ngram corpus_text) template st = inr (pwd, st') /\
    length pwd = length template /\
    forall i, i < length template ->
      let c := nth i template " "%char in
      let o := nth i pwd " "%char in
      (c = "l"%char -> lowercase_or_underscore o) /\
      (c = "u"%char -> uppercase_or_underscore o) /\
      (c = "m"%char -> lowercase_or_underscore o \/ uppercase_or_underscore o) /\
      (c = "d"%char -> In o digits) /\
      (c = "p"%char -> In o punctuation) /\
      (~ In c ["u"; "l"; "m"; "d"; "p"]%char -> o = c).
Proof.
  intros Hlen.
  destruct (built_generate_ok (main_corpus corpus_text) 3 template st Hlen
              (le_S 1 2 (le_S 1 1 (le_n 1)))) as (pwd & st' & E & _).
  fold (main_ngram corpus_text) in E.
  exists pwd, st'. split; [exact E|]. exact (main_password_chars _ _ _ _ _ E).
Qed.


End Extras.

(** ** Witnesses of the further properties *)

Lemma Ngram_init_pooling_witness :
  ["b"%char] <> [] /\
  count_of (table (Ngram_init corpus_ex 2)) ["a"; "b"]%char "r"%char <=
  count_of (table (Ngram_init corpus_ex 2)) ["b"]%char "r"%char.
Proof.
  assert (H : ["b"%char] <> []) by discriminate.
  split; [exact H|]. exact (Ngram_init_pooling corpus_ex 2 "a"%char ["b"%char] "r"%char H).
Defined.

Lemma sample_last_n_witness :
  1 <= order (Ngram_init corpus_ex 2) <= length ["a"; "b"]%char /\
  sample lcg (Ngram_init corpus_ex 2) (["x"; "y"] ++ ["a"; "b"])%char 0 =
  sample lcg (Ngram_init corpus_ex 2) ["a"; "b"]%char 0.
Proof.
  assert (H : 1 <= order (Ngram_init corpus_ex 2) <= length ["a"; "b"]%char)
    by (split; apply Nat.leb_le; vm_compute; reflexivity).
  split; [exact H|]. exact (sample_last_n lcg (Ngram_init corpus_ex 2) _ _ 0 H).
Defined.

Lemma sample_result_position_witness :
  sample lcg (Ngram_init corpus_ex 2) ["b"]%char 0 = inr ("r"%char, 1) /\
  exists p, 2 <= p < length corpus_ex /\ nth p corpus_ex " "%char = "r"%char.
Proof.
  assert (H : sample lcg (Ngram_init corpus_ex 2) ["b"]%char 0 = inr ("r"%char, 1))
    by (vm_compute; reflexivity).
  split; [exact H|]. exact (sample_result_position lcg corpus_ex 2 _ _ _ _ H).
Defined.

Lemma phrase_extends_witness :
  phrase lcg (Ngram_init corpus_ex 2) (2 + 1) 0 = inr (list_ascii_of_string "abr", 4) /\
  exists st1, phrase lcg (Ngram_init corpus_ex 2) 2 0 =
              inr (firstn 2 (list_ascii_of_string "abr"), st1).
Proof.
  assert (H : phrase lcg (Ngram_init corpus_ex 2) (2 + 1) 0 = inr (list_ascii_of_string "abr", 4))
    by (vm_compute; reflexivity).
  split; [exact H|]. exact (proj2 (phrase_extends lcg (Ngram_init corpus_ex 2) 2 1 0) _ _ H).
Defined.

Lemma phrase_bigrams_witness :
  phrase lcg (Ngram_init corpus_ex 2) 6 0 = inr (list_ascii_of_string "abraca", 7) /\
  1 <= 3 < 6 /\
  lookup [nth (3 - 1) (list_ascii_of_string "abraca") " "%char] (table (Ngram_init corpus_ex 2))
    <> None /\
  exists p, 2 <= p < length corpus_ex /\ 1 <= p /\
    nth (p - 1) corpus_ex " "%char = nth (3 - 1) (list_ascii_of_string "abraca") " "%char /\
    nth p corpus_ex " "%char = nth 3 (list_ascii_of_string "abraca") " "%char.
Proof.
  assert (H : phrase lcg (Ngram_init corpus_ex 2) 6 0 = inr (list_ascii_of_string "abraca", 7))
    by (vm_compute; reflexivity).
  assert (Hi : 1 <= 3 < 6) by lia.
  assert (Hx : lookup [nth (3 - 1) (list_ascii_of_string "abraca") " "%char]
                      (table (Ngram_init corpus_ex 2)) <> None)
    by (intros E; vm_compute in E; discriminate E).
  split; [exact H|split; [exact Hi|split; [exact Hx|]]].
  exact (phrase_bigrams lcg corpus_ex 2 6 0 _ _ H 3 Hi Hx).
Defined.

Lemma generate_password_positions_witness :
  generate_password lcg (Ngram_init corpus_ex 2) (list_ascii_of_string "ul-dmp") 0 =
    inr (list_ascii_of_string "Ab-2R*", 10) /\
  exists ph st1,
    phrase lcg (Ngram_init corpus_ex 2) (length (list_ascii_of_string "ul-dmp")) 0 = inr (ph, st1) /\
    length ph = length (list_ascii_of_string "ul-dmp") /\
    length (list_ascii_of_string "Ab-2R*") = length (list_ascii_of_string "ul-dmp") /\
    forall i, i < length (list_ascii_of_string "ul-dmp") ->
      position_ok (nth i (list_ascii_of_string "ul-dmp") " "%char)
                  (nth (letters_before (list_ascii_of_string "ul-dmp") i) ph " "%char)
                  (nth i (list_ascii_of_string "Ab-2R*") " "%char).
Proof.
  assert (H : generate_password lcg (Ngram_init corpus_ex 2) (list_ascii_of_string "ul-dmp") 0 =
                inr (list_ascii_of_string "Ab-2R*", 10)) by (vm_compute; reflexivity).
  split; [exact H|]. exact (generate_password_positions lcg _ _ _ _ _ H).
Defined.

Lemma main_passwords_witness :
  3 < length (main_corpus (list_ascii_of_string "Abra, cadabra 42!")) /\
  exists pwd st',
    generate_password lcg (main_ngram (list_ascii_of_string "Abra, cadabra 42!"))
      (list_ascii_of_string "ml-dp") 0 = inr (pwd, st') /\
    length pwd = length (list_ascii_of_string "ml-dp") /\
    forall i, i < length (list_ascii_of_string "ml-dp") ->
      let c := nth i (list_ascii_of_string "ml-dp") " "%char in
      let o := nth i pwd " "%char in
      (c = "l"%char -> lowercase_or_underscore o) /\
      (c = "u"%char -> uppercase_or_underscore o) /\
      (c = "m"%char -> lowercase_or_underscore o \/ uppercase_or_underscore o) /\
      (c = "d"%char -> In o digits) /\
      (c = "p"%char -> In o punctuation) /\
      (~ In c ["u"; "l"; "m"; "d"; "p"]%char -> o = c).
Proof.
  assert (H : 3 < length (main_corpus (list_ascii_of_string "Abra, cadabra 42!")))
    by (apply Nat.leb_le; vm_compute; reflexivity).
  split; [exact H|]. exact (main_passwords lcg _ (list_ascii_of_string "ml-dp") 0 H).
Defined.

